(** * A noisy-channel spelling corrector (ex1.py): shallow embedding

    The development follows the Python module [ex1.py]: the class
    [Spell_Checker], its inner class [Language_Model] and the module-level
    function [normalize_text].

    Conventions of the embedding.
    - A Python [str] is a [string]; the model covers 7-bit ASCII text, on which
      [str.lower], [string.punctuation] and the regular expression classes
      [\w], [\d], [\S] have the definitions written out below.
    - A Python [int] count is a [nat]; the order [n] of the model is a [nat]
      and the windows of [build_model] are written for [1 <= n].
    - A Python [float] that is a probability or a weight is an exact rational
      ([Q]); a log-likelihood is a real number ([R]) or minus infinity.
      Rounding and overflow of IEEE arithmetic are not modelled.
    - A [dict], [Counter] or [defaultdict] is a [gmap], read with a zero (or
      empty) default where the source reads a [Counter] or a [defaultdict];
      a [set] is a [gset].
      Reading a [defaultdict] at a missing key also stores the default there;
      a stored zero or empty [Counter] changes no count that is read
      afterwards, and the embedding does not record it.
    - The iteration order of a Python [set] is not specified; where the
      source iterates over a set the embedding uses [elements].
    - Exceptions are values of [exn], threaded through the [result] monad. *)

From Stdlib Require Import String Ascii QArith Qminmax Qreals Reals Lia Lra.
From stdpp Require Import gmap strings list fin_maps sorting.

(** ** Exceptions and the result monad *)

Inductive exn : Set :=
  | IndexError
  | ZeroDivisionError
  | ValueError
  | AttributeError
  | TypeError.

Inductive result (A : Type) : Type :=
  | Ok (a : A)
  | Raise (e : exn).
Arguments Ok {A} a.
Arguments Raise {A} e.

Global Instance result_ret : MRet result := fun A a => Ok a.
Global Instance result_bind : MBind result := fun A B f r =>
  match r with
  | Ok a => f a
  | Raise e => Raise e
  end.

(** A [for] loop whose body may raise: the state is threaded left to right
    and the first exception ends the loop. *)
Fixpoint for_each {A S : Type} (body : S -> A -> result S) (xs : list A) (s : S)
  : result S :=
  match xs with
  | [] => Ok s
  | x :: xs' => s' ← body s x; for_each body xs' s'
  end.

(** ** Python primitives on strings and lists *)

Module Py.

(** [s[:i]] *)
Fixpoint str_take (i : nat) (s : string) : string :=
  match i, s with
  | S i', String c s' => String c (str_take i' s')
  | _, _ => ""
  end.

(** [s[i:]] *)
Fixpoint str_drop (i : nat) (s : string) : string :=
  match i, s with
  | S i', String _ s' => str_drop i' s'
  | _, _ => s
  end.

(** [s[i:j]] for [0 <= i], [0 <= j] *)
Definition str_slice (i j : nat) (s : string) : string :=
  str_take (j - i) (str_drop i s).

(** [s[i]] for [0 <= i]; [None] stands for the [IndexError] *)
Fixpoint str_get (i : nat) (s : string) : option ascii :=
  match i, s with
  | _, EmptyString => None
  | O, String c _ => Some c
  | S i', String _ s' => str_get i' s'
  end.

(** [s[-1]] *)
Fixpoint str_last (s : string) : option ascii :=
  match s with
  | EmptyString => None
  | String c EmptyString => Some c
  | String _ s' => str_last s'
  end.

(** a one-character string *)
Definition chr (c : ascii) : string := String c "".

(** [list(s)]: the characters of [s], each a string of length one *)
Fixpoint list_of_str (s : string) : list string :=
  match s with
  | EmptyString => []
  | String c s' => chr c :: list_of_str s'
  end.

(** [str.isspace] on the ASCII range *)
Definition isspace (c : ascii) : bool :=
  let k := nat_of_ascii c in
  ((9 <=? k) && (k <=? 13)) || ((28 <=? k) && (k <=? 32)).

(** [s.split()]: maximal runs of non-space characters.  [cur] is the run
    being read, in reverse. *)
Fixpoint split_go (cur : option string) (s : string) : list string :=
  match s with
  | EmptyString => option_list (String.rev <$> cur)
  | String c s' =>
      if isspace c
      then option_list (String.rev <$> cur) ++ split_go None s'
      else split_go (Some (String c (default "" cur))) s'
  end.
Definition split (s : string) : list string := split_go None s.

(** [sep.join(l)] *)
Fixpoint join (sep : string) (l : list string) : string :=
  match l with
  | [] => ""
  | [x] => x
  | x :: l' => x +:+ sep +:+ join sep l'
  end.

(** [l[i:j]] for [0 <= i], [0 <= j] *)
Definition slice {A} (i j : nat) (l : list A) : list A :=
  take (j - i) (drop i l).

(** [sum(c.values())] *)
Definition sum_values `{Countable K} (c : gmap K nat) : nat :=
  map_fold (fun _ v acc => v + acc) 0 c.

(** [c[k] += 1] on a [Counter] *)
Definition incr `{Countable K} (k : K) (c : gmap K nat) : gmap K nat :=
  <[k := S (c !!! k)]> c.

(** [c.update(l)] on a [Counter] with an iterable of keys *)
Definition update `{Countable K} (c : gmap K nat) (l : list K) : gmap K nat :=
  foldl (fun acc k => incr k acc) c l.

(** [a / b] on numbers *)
Definition truediv (a b : Q) : result Q :=
  if Qeq_bool b 0 then Raise ZeroDivisionError else Ok (a / b)%Q.

(** [math.log] *)
Definition math_log (x : Q) : result R :=
  if Qle_bool x 0 then Raise ValueError else Ok (ln (Q2R x)).

(** a float that is a real number or [float('-inf')] *)
Inductive float : Type :=
  | Fin (r : R)
  | NegInf.

(** [math.exp] *)
Definition math_exp (x : float) : R :=
  match x with
  | Fin r => exp r
  | NegInf => 0%R
  end.

(** [max(l, key=key)]: the first item whose key no later key exceeds; the
    key of each item is computed once and may raise *)
Fixpoint max_by_go {A} (key : A -> result R) (best : A) (best_key : R)
    (l : list A) : result A :=
  match l with
  | [] => Ok best
  | x :: l' =>
      k ← key x;
      if Rlt_dec best_key k then max_by_go key x k l'
      else max_by_go key best best_key l'
  end.

Definition max_by {A} (key : A -> result R) (l : list A) : result A :=
  match l with
  | [] => Raise ValueError
  | x :: l' => k ← key x; max_by_go key x k l'
  end.

End Py.

(** ** [normalize_text] (default arguments) *)

Definition lower (c : ascii) : ascii :=
  let k := nat_of_ascii c in
  if (65 <=? k) && (k <=? 90) then ascii_of_nat (k + 32) else c.

Fixpoint str_lower (s : string) : string :=
  match s with
  | EmptyString => ""
  | String c s' => String (lower c) (str_lower s')
  end.

(** [re.sub(r'https?://\S+', '', text)]: a match starts where the text reads
    [http://] or [https://] followed by a non-space character, and runs to the
    end of that run of non-space characters.  [skip] is set inside a match. *)
Definition url_at (s : string) : bool :=
  match s with
  | String "h" (String "t" (String "t" (String "p" (String ":" (String "/"
      (String "/" (String c _))))))) => negb (Py.isspace c)
  | String "h" (String "t" (String "t" (String "p" (String "s" (String ":"
      (String "/" (String "/" (String c _)))))))) => negb (Py.isspace c)
  | _ => false
  end.

Fixpoint remove_urls_go (skip : bool) (s : string) : string :=
  match s with
  | EmptyString => ""
  | String c s' =>
      if Py.isspace c then String c (remove_urls_go false s')
      else if skip then remove_urls_go true s'
      else if url_at s then remove_urls_go true s'
      else String c (remove_urls_go false s')
  end.

(** [string.punctuation] *)
Definition punctuation : list ascii :=
  "!"%char :: ascii_of_nat 34 ::
  list_ascii_of_string "#$%&'()*+,-./:;<=>?@[\]^_`{|}~".

Fixpoint str_filter (keep : ascii -> bool) (s : string) : string :=
  match s with
  | EmptyString => ""
  | String c s' =>
      if keep c then String c (str_filter keep s') else str_filter keep s'
  end.

Definition is_punctuation (c : ascii) : bool := bool_decide (c ∈ punctuation).

(** [\d] on the ASCII range *)
Definition is_digit (c : ascii) : bool :=
  let k := nat_of_ascii c in (48 <=? k) && (k <=? 57).

(** [\w] on the ASCII range *)
Definition is_word (c : ascii) : bool :=
  let k := nat_of_ascii c in
  ((97 <=? k) && (k <=? 122)) || ((65 <=? k) && (k <=? 90))
  || is_digit c || (k =? 95).

(** [re.findall(r'\w+', text)]: maximal runs of word characters *)
Fixpoint findall_word_go (cur : option string) (s : string) : list string :=
  match s with
  | EmptyString => option_list (String.rev <$> cur)
  | String c s' =>
      if is_word c
      then findall_word_go (Some (String c (default "" cur))) s'
      else option_list (String.rev <$> cur) ++ findall_word_go None s'
  end.
Definition findall_word (s : string) : list string := findall_word_go None s.

Definition normalize_text (text : string) : string :=
  let text := str_lower text in
  let text := remove_urls_go false text in
  let text := str_filter (fun c => negb (is_punctuation c)) text in
  let text := str_filter (fun c => negb (is_digit c)) text in
  let tokens := findall_word text in
  Py.join " " tokens.


(** ** The inner class [Language_Model] *)

Module Language_Model.

Record t : Type := mk {
  n : nat;                                   (* the n of the n-gram *)
  chars : bool;                              (* character-level model *)
  char_pair : gmap string nat;               (* Counter: 'c1c2' -> count *)
  char_counts : gmap string nat;             (* Counter: 'c' -> count *)
  model_dict : gmap (list string) nat;       (* defaultdict(int): ngram -> count *)
  suggestions : gmap (list string) (gmap string nat);
                                             (* defaultdict(Counter) *)
  freq_tokens : gmap string nat;             (* Counter: token -> count *)
  token_count : nat;
  vocab : gset string
}.

(** [__init__] *)
Definition init (n0 : nat) (chars0 : bool) : t :=
  mk n0 chars0 ∅ ∅ ∅ ∅ ∅ 0 ∅.

Definition get_vocab (self : t) : gset string := vocab self.
Definition get_model_window_size (self : t) : nat := n self.

(** [l[i]] for [0 <= i] *)
Definition index {A} (l : list A) (i : nat) : result A :=
  match l !! i with
  | Some x => Ok x
  | None => Raise IndexError
  end.

(** [l[-1]] *)
Definition index_last {A} (l : list A) : result A :=
  match last l with
  | Some x => Ok x
  | None => Raise IndexError
  end.

(** [s[i]] for [0 <= i] and [s[-1]], as strings of length one *)
Definition str_index (s : string) (i : nat) : result string :=
  match Py.str_get i s with
  | Some c => Ok (Py.chr c)
  | None => Raise IndexError
  end.

Definition str_index_last (s : string) : result string :=
  match Py.str_last s with
  | Some c => Ok (Py.chr c)
  | None => Raise IndexError
  end.

(** [list(normalized_text)] or [normalized_text.split()] *)
Definition tokenize (self : t) (normalized_text : string) : list string :=
  if chars self then Py.list_of_str normalized_text
  else Py.split normalized_text.

(** [['<s>'] * (n - 1) + tokens + ['</s>']] *)
Definition pad (window_size : nat) (tokens : list string) : list string :=
  replicate (window_size - 1) "<s>" ++ tokens ++ ["</s>"].

(** the first loop of [build_model], over [range(len(normalized_text) - 1)] *)
Definition count_chars_body (normalized_text : string)
    (st : gmap string nat * gmap string nat) (i : nat)
  : result (gmap string nat * gmap string nat) :=
  c ← str_index normalized_text i;
  let char_pair0 := Py.str_slice i (i + 2) normalized_text in
  Ok (Py.incr c st.1, Py.incr char_pair0 st.2).

(** the second loop of [build_model], over [range(n - 1, len(tokens))] *)
Definition count_ngrams_body (n0 : nat) (tokens : list string)
    (st : gmap (list string) nat * gmap (list string) (gmap string nat))
    (i : nat)
  : result (gmap (list string) nat * gmap (list string) (gmap string nat)) :=
  let ngram := Py.slice (i + 1 - n0) (i + 1) tokens in
  next_token ← index tokens i;
  let context := removelast ngram in
  Ok (Py.incr ngram st.1,
      <[context := Py.incr next_token (st.2 !!! context)]> st.2).

Definition build_model (self : t) (text : string) : result t :=
  let normalized_text := normalize_text text in
  let tokens := tokenize self normalized_text in
  st ← for_each (count_chars_body normalized_text)
         (seq 0 (String.length normalized_text - 1))
         (char_counts self, char_pair self);
  c ← str_index_last normalized_text;
  let char_counts' := Py.incr c st.1 in
  let freq_tokens' := Py.update (freq_tokens self) tokens in
  let token_count' := Py.sum_values freq_tokens' in
  let vocab' := vocab self ∪ dom freq_tokens' in
  let tokens := pad (n self) tokens in
  tb ← for_each (count_ngrams_body (n self) tokens)
         (seq (n self - 1) (length tokens - (n self - 1)))
         (model_dict self, suggestions self);
  Ok (mk (n self) (chars self) st.2 char_counts' tb.1 tb.2
         freq_tokens' token_count' vocab').

(** [smooth]: the Laplace estimate of an n-gram *)
Definition smooth (self : t) (ngram : list string) : result Q :=
  _ ← index_last ngram;
  let context := removelast ngram in
  let context_count := Py.sum_values (suggestions self !!! context) in
  let token_count0 := default 0 (model_dict self !! ngram) in
  Py.truediv (inject_Z (Z.of_nat (token_count0 + 1)))
             (inject_Z (Z.of_nat (context_count + size (get_vocab self)))).

(** the probability of one window when no token of the text is unseen *)
Definition relative_frequency (self : t) (ngram : list string) : result Q :=
  let context := removelast ngram in
  token ← index_last ngram;
  let context_count := Py.sum_values (suggestions self !!! context) in
  let token_count0 := default 0 ((suggestions self !!! context) !! token) in
  if 0 <? context_count
  then Py.truediv (inject_Z (Z.of_nat token_count0))
                  (inject_Z (Z.of_nat context_count))
  else Ok 0%Q.

(** the floor [1e-8] *)
Definition floor : Q := 1 # 100000000.

(** one iteration of the loop of [evaluate_text] *)
Definition evaluate_body (self : t) (smooth_flag : bool)
    (tokens : list string) (window_size : nat) (log_prob : R) (i : nat)
  : result R :=
  let ngram := Py.slice i (i + window_size) tokens in
  prob ← (if negb smooth_flag then relative_frequency self ngram
          else smooth self ngram);
  if Qlt_le_dec 0 prob
  then l ← Py.math_log prob; Ok (log_prob + l)%R
  else l ← Py.math_log floor; Ok (log_prob + l)%R.

(** [any(token not in self.freq_tokens for token in tokens)] *)
Definition any_unseen (self : t) (tokens : list string) : bool :=
  existsb (fun token => bool_decide (token ∉ dom (freq_tokens self))) tokens.

Definition evaluate_text (self : t) (text : string) : result Py.float :=
  let normalized_text := normalize_text text in
  let tokens := tokenize self normalized_text in
  match tokens with
  | [] => Ok Py.NegInf
  | _ :: _ =>
      let smooth_flag := any_unseen self tokens in
      let window_size := get_model_window_size self in
      let tokens := pad window_size tokens in
      log_prob ← for_each (evaluate_body self smooth_flag tokens window_size)
                   (seq 0 (length tokens - window_size + 1)) 0%R;
      Ok (Py.Fin log_prob)
  end.

End Language_Model.

(** ** The class [Spell_Checker] *)

Module Spell_Checker.

(** the confusion matrices: one table per kind of edit, from a key of two
    characters to a weight *)
Record Error_Tables : Type := mk_tables {
  insertion : gmap string Q;
  deletion : gmap string Q;
  substitution : gmap string Q;
  transposition : gmap string Q
}.

Record t : Type := mk {
  lm : option Language_Model.t;
  error_tables : option Error_Tables
}.

(** [self.lm.<attr>]: an [AttributeError] when no model is set *)
Definition the_lm (self : t) : result Language_Model.t :=
  match lm self with
  | Some m => Ok m
  | None => Raise AttributeError
  end.

(** [self.error_tables[<kind>]]: a [TypeError] when no table is set *)
Definition the_tables (self : t) : result Error_Tables :=
  match error_tables self with
  | Some tb => Ok tb
  | None => Raise TypeError
  end.

Definition evaluate_text (self : t) (text : string) : result Py.float :=
  match lm self with
  | None => Raise ValueError
  | Some m => Language_Model.evaluate_text m text
  end.

(** [known]: the words of an iterable that the model knows.  The model is
    read once per word, so an empty iterable raises nothing. *)
Definition known (self : t) (words : list string) : result (gset string) :=
  match words with
  | [] => Ok ∅
  | _ :: _ =>
      m ← the_lm self;
      Ok (list_to_set
            (filter (fun word => word ∈ Language_Model.get_vocab m) words))
  end.

Definition letters : list ascii :=
  list_ascii_of_string "abcdefghijklmnopqrstuvwxyz".

Definition splits (word : string) : list (string * string) :=
  (fun i => (Py.str_take i word, Py.str_drop i word))
    <$> seq 0 (String.length word + 1).

Definition deletes (word : string) : list string :=
  '(L, R) ← splits word;
  if decide (R = "") then [] else [L +:+ Py.str_drop 1 R].

Definition transposes (word : string) : list string :=
  '(L, R) ← splits word;
  match R with
  | String r0 (String r1 _) =>
      [L +:+ Py.chr r1 +:+ Py.chr r0 +:+ Py.str_drop 2 R]
  | _ => []
  end.

Definition replaces (word : string) : list string :=
  '(L, R) ← splits word;
  if decide (R = "") then []
  else c ← letters; [L +:+ Py.chr c +:+ Py.str_drop 1 R].

Definition inserts (word : string) : list string :=
  '(L, R) ← splits word;
  c ← letters; [L +:+ Py.chr c +:+ R].

Definition edits1 (word : string) : gset string :=
  list_to_set (deletes word ++ transposes word ++ replaces word
               ++ inserts word).

Definition edits2 (word : string) : list string :=
  e1 ← elements (edits1 word); e2 ← elements (edits1 e1); [e2].

Definition get_candidates (self : t) (word : string) : result (gset string) :=
  k0 ← known self [word];
  if decide (k0 = ∅) then
    k1 ← known self (elements (edits1 word));
    if decide (k1 = ∅) then
      k2 ← known self (edits2 word);
      if decide (k2 = ∅) then Ok {[ word ]} else Ok k2
    else Ok k1
  else Ok k0.

(** *** The error model *)

(** the first index of [range(k)] at which the test holds *)
Definition first_index (test : nat -> bool) (k : nat) : option nat :=
  List.find test (seq 0 k).

(** [weight / frequency if frequency else 0.0] *)
Definition normalized (weight : Q) (frequency : nat) : result Q :=
  if decide (frequency = 0) then Ok 0%Q
  else Py.truediv weight (inject_Z (Z.of_nat frequency)).

(** [table.get(key, 0.0)] *)
Definition get_weight (table : gmap string Q) (key : string) : Q :=
  default 0%Q (table !! key).

(** [counter.get(key, 0.0)] *)
Definition get_count (counter : gmap string nat) (key : string) : nat :=
  default 0 (counter !! key).

(** the key of an edit at [idx] of [word]: the character before it, or the
    start-of-word marker, followed by [char] *)
Definition pair_before (word : string) (idx : nat) (char : string)
  : result string :=
  if decide (idx = 0) then Ok ("#" +:+ char)
  else prev ← Language_Model.str_index word (idx - 1); Ok (prev +:+ char).

Definition deletion_point (modified_word original_word : string)
  : option nat :=
  first_index
    (fun idx => bool_decide
       (Py.str_take idx modified_word +:+ Py.str_drop (idx + 1) modified_word
        = original_word))
    (String.length modified_word).

Definition deletion_probability (self : t)
    (modified_word original_word : string) : result Q :=
  if decide (String.length modified_word ≠ String.length original_word + 1)
  then Ok 0%Q
  else
    match deletion_point modified_word original_word with
    | Some idx =>
        char ← Language_Model.str_index modified_word idx;
        char_pair0 ← pair_before modified_word idx char;
        tb ← the_tables self;
        let deletion_prob := get_weight (deletion tb) char_pair0 in
        m ← the_lm self;
        let char_pair_frequency :=
          get_count (Language_Model.char_pair m) char_pair0 in
        normalized deletion_prob char_pair_frequency
    | None => Ok 0%Q
    end.

Definition insertion_point (modified_word original_word : string)
  : option nat :=
  first_index
    (fun idx => bool_decide
       (Py.str_take idx original_word +:+ Py.str_drop (idx + 1) original_word
        = modified_word))
    (String.length original_word).

Definition insertion_probability (self : t)
    (modified_word original_word : string) : result Q :=
  if decide (String.length modified_word + 1 ≠ String.length original_word)
  then Ok 0%Q
  else
    match insertion_point modified_word original_word with
    | Some idx =>
        char ← Language_Model.str_index original_word idx;
        char_pair0 ← pair_before original_word idx char;
        tb ← the_tables self;
        let insertion_prob := get_weight (insertion tb) char_pair0 in
        m ← the_lm self;
        first ← Language_Model.str_index char_pair0 0;
        let char_frequency :=
          get_count (Language_Model.char_counts m) first in
        normalized insertion_prob char_frequency
    | None => Ok 0%Q
    end.

(** the first position of [zip(modified_word, original_word)] at which the
    two characters differ *)
Fixpoint substitution_point (modified_word original_word : string)
  : option (ascii * ascii) :=
  match modified_word, original_word with
  | String mod_char ms, String orig_char os =>
      if decide (mod_char ≠ orig_char) then Some (mod_char, orig_char)
      else substitution_point ms os
  | _, _ => None
  end.

Definition substitution_probability (self : t)
    (modified_word original_word : string) : result Q :=
  if decide (String.length modified_word ≠ String.length original_word)
  then Ok 0%Q
  else
    match substitution_point modified_word original_word with
    | Some (mod_char, orig_char) =>
        let char_pair0 := Py.chr orig_char +:+ Py.chr mod_char in
        tb ← the_tables self;
        let substitution_prob := get_weight (substitution tb) char_pair0 in
        m ← the_lm self;
        second ← Language_Model.str_index char_pair0 1;
        let orig_char_frequency :=
          get_count (Language_Model.char_counts m) second in
        normalized substitution_prob orig_char_frequency
    | None => Ok 0%Q
    end.

Definition transposition_point (modified_word original_word : string)
  : option nat :=
  first_index
    (fun i => bool_decide
       (Py.str_get i original_word = Py.str_get (i + 1) modified_word
        ∧ Py.str_get (i + 1) original_word = Py.str_get i modified_word
        ∧ Py.str_take i original_word +:+ Py.str_drop (i + 2) original_word
          = Py.str_take i modified_word +:+ Py.str_drop (i + 2) modified_word))
    (String.length original_word - 1).

Definition transposition_probability (self : t)
    (modified_word original_word : string) : result Q :=
  if decide (String.length modified_word ≠ String.length original_word)
  then Ok 0%Q
  else
    match transposition_point modified_word original_word with
    | Some i =>
        let char_pair0 := Py.str_slice i (i + 2) original_word in
        tb ← the_tables self;
        let transposition_prob := get_weight (transposition tb) char_pair0 in
        m ← the_lm self;
        let char_pair_frequency :=
          get_count (Language_Model.char_pair m) char_pair0 in
        normalized transposition_prob char_pair_frequency
    | None => Ok Language_Model.floor
    end.

Definition get_first_edit_probability (self : t)
    (candidate original_word : string) (alpha : Q) : result Q :=
  if decide (error_tables self = None ∨ original_word = candidate)
  then Ok alpha
  else
    prob_insert ←
      (if decide (String.length candidate + 1 = String.length original_word)
       then insertion_probability self candidate original_word
       else Ok 0%Q);
    prob_delete ←
      (if decide (String.length candidate = String.length original_word + 1)
       then deletion_probability self candidate original_word
       else Ok 0%Q);
    probs ←
      (if decide (String.length candidate = String.length original_word)
       then prob_subst ← substitution_probability self candidate original_word;
            prob_trans ← transposition_probability self candidate original_word;
            Ok (prob_subst, prob_trans)
       else Ok (0%Q, 0%Q));
    Ok (Qmax prob_insert
          (Qmax prob_delete
             (Qmax probs.1 (Qmax probs.2 Language_Model.floor)))).

Definition calculate_distance_2_probability (self : t)
    (candidate original_word : string) (alpha : Q) : result Q :=
  max_probability ←
    get_first_edit_probability self candidate original_word alpha;
  let intermediate_words :=
    intermediate ← elements (edits1 original_word);
    next_edit ← elements (edits1 intermediate);
    if decide (next_edit = candidate) then [(intermediate, next_edit)]
    else [] in
  for_each
    (fun max_probability '(intermediate, next_edit) =>
       probability_intermediate_to_original ←
         get_first_edit_probability self intermediate original_word alpha;
       probability_candidate_to_intermediate ←
         get_first_edit_probability self candidate intermediate alpha;
       let combined_probability :=
         (probability_intermediate_to_original
          * probability_candidate_to_intermediate)%Q in
       Ok (Qmax max_probability combined_probability))
    intermediate_words max_probability.

Definition compute_error_prob (self : t)
    (candidate original_word : string) (alpha : Q) : result Q :=
  direct_prob ←
    get_first_edit_probability self candidate original_word alpha;
  distance_2_prob ←
    calculate_distance_2_probability self candidate original_word alpha;
  Ok (Qmax direct_prob distance_2_prob).

Definition compute_candidate_probability (self : t)
    (candidate original_word context : string) (alpha : Q) : result R :=
  let full_context := context +:+ " " +:+ candidate in
  m ← the_lm self;
  log_likelihood ← Language_Model.evaluate_text m full_context;
  let language_model_probability := Py.math_exp log_likelihood in
  error_model_probability ←
    compute_error_prob self candidate original_word alpha;
  let combine_probabilities :=
    (language_model_probability * Q2R error_model_probability)%R in
  Ok (Q2R Language_Model.floor * combine_probabilities)%R.

Definition get_correction (self : t) (word context : string) (alpha : Q)
  : result string :=
  candidates ← get_candidates self word;
  if decide (candidates = ∅) then Ok word
  else
    Py.max_by
      (fun candidate =>
         compute_candidate_probability self candidate word context alpha)
      (elements candidates).

(** *** [spell_check] *)

(** the branch for a text shorter than the window *)
Fixpoint correct_each (self : t) (alpha : Q) (tokens : list string)
  : result (list string) :=
  match tokens with
  | [] => Ok []
  | token :: rest =>
      m ← the_lm self;
      corrected_word ←
        (if decide (token ∈ Language_Model.get_vocab m) then Ok token
         else get_correction self token "" alpha);
      corrected_words ← correct_each self alpha rest;
      Ok (corrected_word :: corrected_words)
  end.

(** [[i for i, token in enumerate(tokens) if token not in vocab]] *)
Definition oov_indices (m : Language_Model.t) (tokens : list string)
  : list nat :=
  fst <$> filter (fun it => it.2 ∉ Language_Model.get_vocab m)
                 (imap (fun i token => (i, token)) tokens).

(** the loop over [oov_indices]: [Some] sentence when it returns, [None]
    when it ends *)
Fixpoint oov_scan (self : t) (alpha : Q) (n0 : nat) (tokens : list string)
    (indices : list nat) : result (option string) :=
  match indices with
  | [] => Ok None
  | i :: rest =>
      let context_start := i + 1 - n0 in
      let context := Py.join " " (Py.slice context_start i tokens) in
      token ← Language_Model.index tokens i;
      corrected_word ← get_correction self token context alpha;
      if decide (corrected_word ≠ token)
      then Ok (Some (Py.join " " (<[i := corrected_word]> tokens)))
      else oov_scan self alpha n0 tokens rest
  end.

(** the sentences that differ from the original in one token *)
Fixpoint one_token_variants (self : t) (tokens : list string) (i : nat)
    (rest : list string) : result (list string) :=
  match rest with
  | [] => Ok []
  | token :: rest' =>
      candidates ← get_candidates self token;
      let here :=
        candidate ← elements candidates;
        if decide (candidate ≠ token)
        then [Py.join " " (take i tokens ++ [candidate] ++ drop (i + 1) tokens)]
        else [] in
      later ← one_token_variants self tokens (i + 1) rest';
      Ok (here ++ later)
  end.

Definition score_sentence (sentence original_sentence : string)
    (log_likelihood : Py.float) (alpha : Q) : R :=
  if decide (sentence = original_sentence)
  then (Py.math_exp log_likelihood * Q2R alpha)%R
  else (Py.math_exp log_likelihood * Q2R (1 - alpha))%R.

Fixpoint score_all (self : t) (original_sentence : string) (alpha : Q)
    (sentences : list string) : result (list (R * string)) :=
  match sentences with
  | [] => Ok []
  | sentence :: rest =>
      log_likelihood ← evaluate_text self sentence;
      let probability :=
        score_sentence sentence original_sentence log_likelihood alpha in
      scored ← score_all self original_sentence alpha rest;
      Ok ((probability, sentence) :: scored)
  end.

Definition best_sentence (self : t) (alpha : Q) (tokens : list string)
  : result string :=
  let original_sentence := Py.join " " tokens in
  variants ← one_token_variants self tokens 0 tokens;
  let possible_sentences := original_sentence :: variants in
  scored_sentences ← score_all self original_sentence alpha possible_sentences;
  best ← Py.max_by (fun x => Ok x.1) scored_sentences;
  Ok best.2.

Definition spell_check (self : t) (text : string) (alpha : Q)
  : result string :=
  let text := normalize_text text in
  let tokens := Py.split text in
  match tokens with
  | [] => Ok text
  | _ :: _ =>
      m ← the_lm self;
      let n0 := Language_Model.get_model_window_size m in
      if decide (length tokens < n0) then
        corrected_words ← correct_each self alpha tokens;
        Ok (Py.join " " corrected_words)
      else
        replaced ← oov_scan self alpha n0 tokens (oov_indices m tokens);
        match replaced with
        | Some sentence => Ok sentence
        | None => best_sentence self alpha tokens
        end
  end.

End Spell_Checker.

(** * Notions used to state the properties *)

(** the contiguous windows of [k] items of a list, left to right *)
Fixpoint windows {A} (k : nat) (l : list A) : list (list A) :=
  match l with
  | [] => []
  | _ :: l' => if k <=? length l then take k l :: windows k l' else []
  end.

(** the n-gram windows of a text for a model: those of its padded tokens *)
Definition text_tokens (m : Language_Model.t) (text : string) : list string :=
  Language_Model.tokenize m (normalize_text text).

Definition text_ngrams (m : Language_Model.t) (text : string)
  : list (list string) :=
  windows (Language_Model.n m)
          (Language_Model.pad (Language_Model.n m) (text_tokens m text)).

(** [log(prob)] when [prob > 0] and [log(1e-8)] otherwise *)
Definition log_or_floor (prob : Q) : R :=
  if Qlt_le_dec 0 prob then ln (Q2R prob) else ln (Q2R Language_Model.floor).

Definition sum_logs (probs : list Q) : R :=
  foldr (fun prob acc => (log_or_floor prob + acc)%R) 0%R probs.

(** the count of the next token after a context, the total of a context, and
    the raw relative frequency of an n-gram: the first over the second, and 0
    when the second is 0 *)
Definition context_next_count (m : Language_Model.t)
    (context : list string) (token : string) : nat :=
  (Language_Model.suggestions m !!! context) !!! token.

Definition context_total (m : Language_Model.t) (context : list string) : nat :=
  Py.sum_values (Language_Model.suggestions m !!! context).

Definition raw_frequency (m : Language_Model.t) (ngram : list string) : Q :=
  let context := removelast ngram in
  let token := List.last ngram "" in
  if decide (context_total m context = 0) then 0%Q
  else (inject_Z (Z.of_nat (context_next_count m context token))
        / inject_Z (Z.of_nat (context_total m context)))%Q.

(** the probability of one window, as [evaluate_text] computes it *)
Definition window_probability (m : Language_Model.t) (smooth_flag : bool)
    (ngram : list string) : result Q :=
  if negb smooth_flag then Language_Model.relative_frequency m ngram
  else Language_Model.smooth m ngram.

(** the number of occurrences of an item in a list *)
Definition count_in `{EqDecision A} (x : A) (l : list A) : nat :=
  length (filter (fun y => y = x) l).

(** the substrings of two adjacent characters of a string, left to right *)
Fixpoint char_pairs (s : string) : list string :=
  match s with
  | String a (String b _ as s') => String a (String b "") :: char_pairs s'
  | _ => []
  end.

(** the characters and the adjacent pairs of the normalized text *)
Definition text_chars (text : string) : list string :=
  Py.list_of_str (normalize_text text).

Definition text_char_pairs (text : string) : list string :=
  char_pairs (normalize_text text).

(** one more occurrence of an n-gram in the table of next tokens *)
Definition add_suggestion (sg : gmap (list string) (gmap string nat))
    (ngram : list string) : gmap (list string) (gmap string nat) :=
  <[removelast ngram :=
      Py.incr (List.last ngram "") (sg !!! removelast ngram)]> sg.

(** the state of a model after a completed [build_model] on [text] *)
Definition trained (m : Language_Model.t) (text : string) : Language_Model.t :=
  let freq := Py.update (Language_Model.freq_tokens m) (text_tokens m text) in
  Language_Model.mk
    (Language_Model.n m) (Language_Model.chars m)
    (Py.update (Language_Model.char_pair m) (text_char_pairs text))
    (Py.update (Language_Model.char_counts m) (text_chars text))
    (Py.update (Language_Model.model_dict m) (text_ngrams m text))
    (foldl add_suggestion (Language_Model.suggestions m) (text_ngrams m text))
    freq (Py.sum_values freq)
    (Language_Model.vocab m ∪ dom freq).

(** the states a model can be in: those reached from the constructor by
    completed calls of [build_model] (a call that raises changes nothing) *)
Inductive reachable : Language_Model.t -> Prop :=
  | reachable_init n0 chars0 :
      1 ≤ n0 → reachable (Language_Model.init n0 chars0)
  | reachable_build m text m' :
      reachable m → Language_Model.build_model m text = Ok m' → reachable m'.

(** one more occurrence of an n-gram in both tables of [build_model] *)
Definition count_ngram
    (st : gmap (list string) nat * gmap (list string) (gmap string nat))
    (ngram : list string)
  : gmap (list string) nat * gmap (list string) (gmap string nat) :=
  (Py.incr ngram st.1, add_suggestion st.2 ngram).

(** [m'] is the state of [m] after a sequence of completed [build_model]
    calls *)
Inductive built_from (m : Language_Model.t) : Language_Model.t -> Prop :=
  | built_refl : built_from m m
  | built_step m1 text m2 :
      built_from m m1 → Language_Model.build_model m1 text = Ok m2 →
      built_from m m2.

(** the Laplace estimate of an n-gram:
    (count of the n-gram + 1) / (total of its context + size of the vocabulary) *)
Definition laplace_estimate (m : Language_Model.t) (ngram : list string) : Q :=
  (inject_Z (Z.of_nat (Language_Model.model_dict m !!! ngram + 1))
   / inject_Z (Z.of_nat (context_total m (removelast ngram)
                         + size (Language_Model.vocab m))))%Q.

(** the first run of out-of-vocabulary tokens: the positions from the first
    unknown token up to the next known one.  [i] is the position of the head
    of [tokens]. *)
Fixpoint oov_run (m : Language_Model.t) (i : nat) (tokens : list string)
  : list nat :=
  match tokens with
  | [] => []
  | token :: rest =>
      if decide (token ∉ Language_Model.get_vocab m)
      then i :: oov_run m (S i) rest
      else []
  end.

Fixpoint first_oov_run_from (m : Language_Model.t) (i : nat)
    (tokens : list string) : list nat :=
  match tokens with
  | [] => []
  | token :: rest =>
      if decide (token ∉ Language_Model.get_vocab m)
      then oov_run m i tokens
      else first_oov_run_from m (S i) rest
  end.

Definition first_oov_run (m : Language_Model.t) (tokens : list string)
  : list nat :=
  first_oov_run_from m 0 tokens.

(** the context of the token at [i]: the up to [n - 1] tokens before it *)
Definition context_before (n0 : nat) (tokens : list string) (i : nat) : string :=
  Py.join " " (Py.slice (i + 1 - n0) i tokens).

(** a model trained on the one word [hello], and a checker that uses it
    without error tables *)
Definition hello_model : Language_Model.t :=
  trained (Language_Model.init 2 false) "hello".

Definition hello_checker : Spell_Checker.t :=
  Spell_Checker.mk (Some hello_model) None.

Definition two_runs_tokens : list string :=
  Py.split (normalize_text "q hello helo").

(** every character of a string satisfies [P] *)
Fixpoint str_Forall (P : ascii -> Prop) (s : string) : Prop :=
  match s with
  | EmptyString => True
  | String c s' => P c ∧ str_Forall P s'
  end.

(** the characters [a] to [z] *)
Definition is_lower_letter (c : ascii) : Prop :=
  97 ≤ nat_of_ascii c ≤ 122.

Definition is_lowerb (c : ascii) : bool :=
  let k := nat_of_ascii c in (97 <=? k) && (k <=? 122).

(** the characters [A] to [Z] *)
Definition is_upper (c : ascii) : bool :=
  let k := nat_of_ascii c in (65 <=? k) && (k <=? 90).

(** a non-empty word of lowercase letters *)
Definition is_word_of_letters (w : string) : Prop :=
  w ≠ "" ∧ str_Forall is_lower_letter w.

(** the maximal runs of characters that are not separators, left to right;
    [cur] is the run being read, reversed *)
Fixpoint runs_go (sep : ascii -> bool) (cur : option string) (s : string)
  : list string :=
  match s with
  | EmptyString => option_list (String.rev <$> cur)
  | String c s' =>
      if sep c
      then option_list (String.rev <$> cur) ++ runs_go sep None s'
      else runs_go sep (Some (String c (default "" cur))) s'
  end.

(** what a token of a normalized text can be: a word of lowercase letters
    for a word model, one letter or one space for a character model *)
Definition is_plain_token (token : string) : Prop :=
  token ≠ "" ∧ str_Forall (fun c => is_lower_letter c ∨ c = " "%char) token.

(** the words of a text: what [normalize_text] joins with single spaces *)
Definition normalized_words (text : string) : list string :=
  findall_word
    (str_filter (fun c => negb (is_digit c))
       (str_filter (fun c => negb (is_punctuation c))
          (remove_urls_go false (str_lower text)))).

(** [sentence] is [tokens] joined, with exactly one token replaced by a
    different word of the vocabulary of [m] *)
Definition one_word_replaced (m : Language_Model.t) (tokens : list string)
    (sentence : string) : Prop :=
  ∃ i token c,
    tokens !! i = Some token ∧ c ≠ token ∧ c ∈ Language_Model.vocab m
    ∧ sentence = Py.join " " (<[i := c]> tokens).

(** a text of 7-bit ASCII characters ([str.isascii]): the range on which
    [lower], [Py.isspace], [is_digit] and [is_word] are Python's
    [str.lower], [\s], [\d] and [\w] *)
Definition str_isascii (text : string) : Prop :=
  str_Forall (fun c => nat_of_ascii c < 128) text.

(** the states reached from the constructor by completed calls of
    [build_model] on ASCII texts *)
Inductive reachable_ascii : Language_Model.t -> Prop :=
  | reachable_ascii_init n0 chars0 :
      1 ≤ n0 → reachable_ascii (Language_Model.init n0 chars0)
  | reachable_ascii_build m text m' :
      reachable_ascii m → str_isascii text →
      Language_Model.build_model m text = Ok m' → reachable_ascii m'.


(** * Properties *)

(** ** Normalization on examples *)

Example normalize_text_sentence :
  normalize_text "The Cat, sat on 3 mats! See https://a.b/c?d=1 now."
  = "the cat sat on mats see now".
Proof. reflexivity. Qed.

Example normalize_text_symbols : normalize_text "12, 34... (56)!" = "".
Proof. reflexivity. Qed.

(** ** The result monad and loops *)

Lemma bind_Ok {A B} (f : A -> result B) (r : result A) (b : B) :
  r ≫= f = Ok b ↔ ∃ a, r = Ok a ∧ f a = Ok b.
Proof.
  destruct r as [a|e]; simpl; split.
  - intros Hf. by exists a.
  - by intros (a' & [= <-] & Hf).
  - done.
  - by intros (a' & [=] & _).
Qed.

Lemma bind_Raise {A B} (f : A -> result B) (r : result A) (e : exn) :
  r ≫= f = Raise e ↔ r = Raise e ∨ ∃ a, r = Ok a ∧ f a = Raise e.
Proof.
  destruct r as [a|e']; simpl; split.
  - intros Hf. right. by exists a.
  - intros [[=]|(a' & [= <-] & Hf)]. done.
  - intros [= ->]. by left.
  - intros [[= ->]|(a' & [=] & _)]. done.
Qed.

(** A loop whose body never raises [e] does not raise [e]. *)
Lemma for_each_not_raise {A S} (body : S -> A -> result S) (e : exn) xs s :
  (∀ s' x, x ∈ xs → body s' x ≠ Raise e) →
  for_each body xs s ≠ Raise e.
Proof.
  revert s. induction xs as [|x xs IH]; intros s Hbody; simpl; [done|].
  intros [Hx|(s' & _ & Hrest)]%bind_Raise.
  - by apply (Hbody s x); [left|].
  - apply (IH s'); [|done]. intros s'' y Hy. apply Hbody. by right.
Qed.

(** A loop whose body always completes, completes. *)
Lemma for_each_total {A S} (body : S -> A -> result S) xs s :
  (∀ s' x, x ∈ xs → ∃ s'', body s' x = Ok s'') →
  ∃ s'', for_each body xs s = Ok s''.
Proof.
  revert s. induction xs as [|x xs IH]; intros s Hbody; simpl; [by eexists|].
  destruct (Hbody s x) as [s' ->]; [by left|]. simpl.
  apply IH. intros s'' y Hy. apply Hbody. by right.
Qed.

(** ** Logarithms of probabilities *)

Lemma math_log_pos (x : Q) : (0 < x)%Q → Py.math_log x = Ok (ln (Q2R x)).
Proof.
  intros Hx. unfold Py.math_log.
  destruct (Qle_bool x 0) eqn:Hle; [|done].
  apply Qle_bool_iff in Hle. by apply Qle_not_lt in Hle.
Qed.

Lemma floor_pos : (0 < Language_Model.floor)%Q.
Proof. reflexivity. Qed.

Lemma truediv_not_ValueError a b : Py.truediv a b ≠ Raise ValueError.
Proof. unfold Py.truediv. by destruct (Qeq_bool b 0). Qed.

Lemma truediv_nonzero (a b : Q) :
  ¬ (b == 0)%Q → Py.truediv a b = Ok (a / b)%Q.
Proof.
  intros Hb. unfold Py.truediv.
  destruct (Qeq_bool b 0) eqn:Heq; [|done].
  by apply Qeq_bool_iff in Heq.
Qed.

Lemma inject_nat_nonzero (k : nat) :
  k ≠ 0 → ¬ (inject_Z (Z.of_nat k) == 0)%Q.
Proof.
  intros Hk Heq. unfold Qeq in Heq. simpl in Heq. lia.
Qed.

(** ** [evaluate_text] *)

Section evaluate.
Import Language_Model.

Lemma windows_short {A} k (l : list A) : length l < k → windows k l = [].
Proof.
  destruct l as [|x l]; [done|]. intros Hk. simpl.
  destruct (k <=? S (length l)) eqn:Hle; [|done].
  apply Nat.leb_le in Hle. simpl in Hk. lia.
Qed.

Lemma windows_seq {A} k (l : list A) :
  1 ≤ k → k ≤ length l →
  (fun i => Py.slice i (i + k) l) <$> seq 0 (length l - k + 1) = windows k l.
Proof.
  intros Hk. unfold Py.slice.
  induction l as [|x l IH]; intros Hlen; simpl in Hlen; [lia|].
  cbn [windows]. 
  assert ((k <=? length (x :: l)) = true) as -> by (apply Nat.leb_le; simpl; lia).
  replace (length (x :: l) - k + 1) with (S (length l + 1 - k))
    by (simpl; lia).
  cbn [seq fmap list_fmap]. f_equal.
  - simpl. replace (k - 0) with k by lia. done.
  - rewrite <- fmap_S_seq, <- list_fmap_compose.
    destruct (decide (k ≤ length l)) as [Hle|Hgt].
    + rewrite <- IH by done.
      replace (length l + 1 - k) with (length l - k + 1) by lia.
      apply list_fmap_ext. intros i j _. simpl.
      replace (S j + k - S j) with (j + k - j) by lia. done.
    + replace (length l + 1 - k) with 0 by lia.
      simpl. symmetry. apply windows_short. lia.
Qed.

Lemma windows_nonempty {A} k (l : list A) w :
  1 ≤ k → w ∈ windows k l → w ≠ [].
Proof.
  intros Hk. induction l as [|x l IH]; simpl; [by intros ?%elem_of_nil|].
  destruct (k <=? S (length l)) eqn:Hle; [|by intros ?%elem_of_nil].
  intros [->|Hw]%elem_of_cons; [|by apply IH].
  destruct k; [lia|]. done.
Qed.

Lemma length_pad k tokens : 1 ≤ k → length (pad k tokens) = k + length tokens.
Proof.
  intros Hk. unfold pad. rewrite !length_app, length_replicate. simpl. lia.
Qed.

Lemma index_last_nonempty (l : list string) :
  l ≠ [] → index_last l = Ok (List.last l "").
Proof.
  intros Hl. unfold index_last.
  induction l as [|x l IH]; [done|].
  destruct l as [|y l]; [done|].
  change (last (x :: y :: l)) with (last (y :: l)).
  change (List.last (x :: y :: l) "") with (List.last (y :: l) "").
  by apply IH.
Qed.

Lemma relative_frequency_raw m ngram :
  ngram ≠ [] → relative_frequency m ngram = Ok (raw_frequency m ngram).
Proof.
  intros Hng. unfold relative_frequency, raw_frequency.
  rewrite index_last_nonempty by done. simpl.
  unfold context_total, context_next_count.
  set (c := suggestions m !!! removelast ngram).
  rewrite lookup_total_alt. simpl.
  destruct (decide (Py.sum_values c = 0)) as [->|Hne]; [done|].
  destruct (0 <? Py.sum_values c) eqn:Hlt.
  - apply truediv_nonzero, inject_nat_nonzero. done.
  - apply Nat.ltb_ge in Hlt. lia.
Qed.

Lemma any_unseen_true m tokens :
  any_unseen m tokens = true ↔
  ∃ token, token ∈ tokens ∧ freq_tokens m !! token = None.
Proof.
  unfold any_unseen. rewrite existsb_exists. split.
  - intros (token & Hin & Hd). exists token. split.
    + by apply list_elem_of_In.
    + apply bool_decide_eq_true in Hd. by apply not_elem_of_dom in Hd.
  - intros (token & Hin & Hd). exists token. split.
    + by apply list_elem_of_In.
    + apply bool_decide_eq_true. by apply not_elem_of_dom.
Qed.

Lemma any_unseen_false m tokens :
  any_unseen m tokens = false ↔
  ∀ token, token ∈ tokens → is_Some (freq_tokens m !! token).
Proof.
  split.
  - intros Hf token Hin.
    destruct (freq_tokens m !! token) eqn:Hl; [by eexists|].
    assert (any_unseen m tokens = true) as Ht; [|congruence].
    apply any_unseen_true. eauto.
  - intros Hall. destruct (any_unseen m tokens) eqn:Hu; [|done].
    apply any_unseen_true in Hu as (token & Hin & Hnone).
    destruct (Hall token Hin) as [? ?]. congruence.
Qed.

Lemma add_log prob (log_prob : R) :
  (if Qlt_le_dec 0 prob
   then l ← Py.math_log prob; Ok (log_prob + l)%R
   else l ← Py.math_log floor; Ok (log_prob + l)%R)
  = Ok (log_prob + log_or_floor prob)%R.
Proof.
  unfold log_or_floor. destruct (Qlt_le_dec 0 prob) as [Hpos|Hle].
  - by rewrite math_log_pos.
  - by rewrite (math_log_pos floor floor_pos).
Qed.

Lemma evaluate_body_eq m flag tokens k (log_prob : R) i :
  evaluate_body m flag tokens k log_prob i
  = prob ← window_probability m flag (Py.slice i (i + k) tokens);
    Ok (log_prob + log_or_floor prob)%R.
Proof.
  unfold evaluate_body, window_probability.
  destruct (if negb flag then _ else _) as [prob|e]; [|reflexivity].
  apply add_log.
Qed.

Lemma evaluate_loop m flag tokens k idxs (log_prob : R) :
  for_each (evaluate_body m flag tokens k) idxs log_prob
  = probs ← mapM (window_probability m flag)
                 ((fun i => Py.slice i (i + k) tokens) <$> idxs);
    Ok (log_prob + sum_logs probs)%R.
Proof.
  revert log_prob. induction idxs as [|i idxs IH]; intros log_prob.
  - simpl. unfold mret, result_ret. simpl. f_equal. lra.
  - cbn [for_each fmap list_fmap mapM]. rewrite evaluate_body_eq.
    destruct (window_probability m flag _) as [prob|e]; [|reflexivity].
    cbn [mbind result_bind]. rewrite IH.
    destruct (mapM _ _) as [probs|e]; [|reflexivity].
    cbn [mbind result_bind mret result_ret]. f_equal.
    unfold sum_logs. cbn [foldr]. lra.
Qed.

Lemma mapM_Ok_fmap {A B} (f : A → result B) (g : A → B) (l : list A) :
  (∀ x, x ∈ l → f x = Ok (g x)) → mapM f l = Ok (g <$> l).
Proof.
  induction l as [|x l IH]; intros Hf; [done|].
  cbn [mapM fmap list_fmap]. rewrite Hf by left. cbn [mbind result_bind].
  rewrite IH; [done|]. intros y Hy. apply Hf. by right.
Qed.

Lemma evaluate_text_windows m text :
  1 ≤ n m → text_tokens m text ≠ [] →
  evaluate_text m text
  = probs ← mapM (window_probability m (any_unseen m (text_tokens m text)))
                 (text_ngrams m text);
    Ok (Py.Fin (sum_logs probs)).
Proof.
  intros Hn Htok. unfold evaluate_text, text_ngrams.
  fold (text_tokens m text).
  destruct (text_tokens m text) as [|token tokens'] eqn:Htokens; [done|].
  rewrite <- Htokens. unfold get_model_window_size.
  rewrite evaluate_loop, windows_seq; [|done|rewrite length_pad; lia].
  destruct (mapM _ _) as [probs|e]; [|reflexivity].
  cbn [mbind result_bind]. do 2 f_equal. lra.
Qed.

(** C1: for a text with at least one token, [evaluate_text] decides
    smoothing once for the whole call.  If a token is absent from
    [freq_tokens], every window of the padded tokens is scored by [smooth];
    if every token is present, every window is scored by its raw relative
    frequency (0 when the context total is 0).  In both cases the result is
    the sum over the windows of [log(prob)] when [prob > 0] and of
    [log(1e-8)] otherwise. *)
Theorem evaluate_text_smoothing_global m text :
  let tokens := text_tokens m text in
  1 ≤ n m → tokens ≠ [] →
  ((∃ token, token ∈ tokens ∧ freq_tokens m !! token = None) →
     evaluate_text m text
     = probs ← mapM (smooth m) (text_ngrams m text);
       Ok (Py.Fin (sum_logs probs)))
  ∧ ((∀ token, token ∈ tokens → is_Some (freq_tokens m !! token)) →
     evaluate_text m text
     = Ok (Py.Fin (sum_logs (raw_frequency m <$> text_ngrams m text)))).
Proof.
  intros tokens Hn Htok. split.
  - intros Hun%any_unseen_true.
    rewrite evaluate_text_windows by done. fold tokens. by rewrite Hun.
  - intros Hall%any_unseen_false.
    rewrite evaluate_text_windows by done. fold tokens. rewrite Hall.
    rewrite (mapM_Ok_fmap _ (raw_frequency m)); [done|].
    intros w Hw. apply relative_frequency_raw.
    by eapply (windows_nonempty (n m)).
Qed.

Lemma evaluate_text_smoothing_global_witness :
  let m := trained (init 2 false) "the cat" in
  (text_ngrams m "the dog" = [["<s>"; "the"]; ["the"; "dog"]; ["dog"; "</s>"]]
   ∧ ∃ probs,
       mapM (smooth m) (text_ngrams m "the dog") = Ok probs
       ∧ Forall2 Qeq probs [2 # 3; 1 # 3; 1 # 2]
       ∧ evaluate_text m "the dog" = Ok (Py.Fin (sum_logs probs)))
  ∧ (text_ngrams m "the cat the"
     = [["<s>"; "the"]; ["the"; "cat"]; ["cat"; "the"]; ["the"; "</s>"]]
     ∧ Forall2 Qeq (raw_frequency m <$> text_ngrams m "the cat the")
         [1%Q; 1%Q; 0%Q; 0%Q]
     ∧ evaluate_text m "the cat the"
       = Ok (Py.Fin (sum_logs
                       (raw_frequency m <$> text_ngrams m "the cat the")))).
Proof.
  intros m.
  assert (1 ≤ n m) as Hn by (simpl; lia).
  split.
  - split; [vm_compute; reflexivity|].
    assert (text_tokens m "the dog" ≠ []) as Htok
      by (vm_compute; discriminate).
    destruct (evaluate_text_smoothing_global m "the dog" Hn Htok)
      as [Hsmooth _].
    eexists. split; [vm_compute; reflexivity|]. split.
    + repeat constructor; vm_compute; reflexivity.
    + rewrite Hsmooth.
      * replace (mapM (smooth m) (text_ngrams m "the dog"))
          with (Ok [2 # 3; 1 # 3; 1 # 2] : result (list Q))
          by (vm_compute; reflexivity).
        reflexivity.
      * exists "dog". split; [|vm_compute; reflexivity].
        apply (bool_decide_unpack _). vm_compute. exact I.
  - split; [vm_compute; reflexivity|].
    assert (text_tokens m "the cat the" ≠ []) as Htok
      by (vm_compute; discriminate).
    destruct (evaluate_text_smoothing_global m "the cat the" Hn Htok)
      as [_ Hraw].
    split.
    + repeat constructor; vm_compute; reflexivity.
    + apply Hraw.
      change (text_tokens m "the cat the") with ["the"; "cat"; "the"].
      intros token Hin.
      apply elem_of_cons in Hin as [->|Hin]; [vm_compute; by eexists|].
      apply elem_of_cons in Hin as [->|Hin]; [vm_compute; by eexists|].
      apply list_elem_of_singleton in Hin as ->. vm_compute. by eexists.
Defined.
End evaluate.

Section evaluate2.
Import Language_Model.

Lemma mapM_not_raise {A B} (f : A → result B) (e : exn) (l : list A) :
  (∀ x, x ∈ l → f x ≠ Raise e) → mapM f l ≠ Raise e.
Proof.
  induction l as [|x l IH]; intros Hf; [done|].
  cbn [mapM]. intros [Hx|(y & _ & [Hl|(ys & _ & [=])]%bind_Raise)]%bind_Raise.
  - by apply (Hf x); [left|].
  - apply IH; [|done]. intros z Hz. apply Hf. by right.
Qed.

Lemma index_last_not_ValueError {A} (l : list A) :
  index_last l ≠ Raise ValueError.
Proof. unfold index_last. by destruct (last l). Qed.

Lemma window_probability_not_ValueError m flag ngram :
  window_probability m flag ngram ≠ Raise ValueError.
Proof.
  unfold window_probability, relative_frequency, smooth.
  destruct flag; cbn [negb].
  - intros [Hi|(x & _ & Hd)]%bind_Raise.
    + by apply index_last_not_ValueError in Hi.
    + by apply truediv_not_ValueError in Hd.
  - intros [Hi|(x & _ & Hd)]%bind_Raise.
    + by apply index_last_not_ValueError in Hi.
    + destruct (0 <? _); [|done]. by apply truediv_not_ValueError in Hd.
Qed.

(** C8: [evaluate_text] returns minus infinity exactly when the text has no
    token.  With at least one token the loop adds [log(prob)] for a positive
    [prob] and [log(1e-8)] otherwise, so no logarithm of zero is taken: the
    call raises no [ValueError] and its result is not minus infinity. *)
Theorem evaluate_text_neg_inf_iff m text :
  (evaluate_text m text = Ok Py.NegInf ↔ text_tokens m text = [])
  ∧ evaluate_text m text ≠ Raise ValueError.
Proof.
  unfold evaluate_text, text_tokens.
  destruct (tokenize m (normalize_text text)) as [|token tokens] eqn:Htokens.
  { by split. }
  rewrite evaluate_loop.
  destruct (mapM _ _) as [probs|e] eqn:Hm; cbn [mbind result_bind].
  - by split.
  - split; [done|]. intros [= ->]. revert Hm. apply mapM_not_raise.
    intros w _. apply window_probability_not_ValueError.
Qed.
End evaluate2.

(** ** Counters *)

Section counters.
Context `{Countable K}.
Implicit Types (c : gmap K nat) (k : K) (l : list K).

Lemma incr_lookup_eq c k : Py.incr k c !!! k = S (c !!! k).
Proof. unfold Py.incr. by rewrite lookup_total_insert_eq. Qed.

Lemma incr_lookup_ne c k k' : k ≠ k' → Py.incr k c !!! k' = c !!! k'.
Proof. intros Hne. unfold Py.incr. by rewrite lookup_total_insert_ne. Qed.

Lemma count_in_cons k x l :
  count_in k (x :: l) = (if decide (x = k) then 1 else 0) + count_in k l.
Proof.
  unfold count_in. rewrite filter_cons. by destruct (decide (x = k)).
Qed.

Lemma count_in_app k l1 l2 :
  count_in k (l1 ++ l2) = count_in k l1 + count_in k l2.
Proof. unfold count_in. by rewrite filter_app, length_app. Qed.

Lemma update_cons c x l : Py.update c (x :: l) = Py.update (Py.incr x c) l.
Proof. done. Qed.

Lemma update_snoc c l x : Py.update c (l ++ [x]) = Py.incr x (Py.update c l).
Proof. unfold Py.update. by rewrite foldl_app. Qed.

Lemma update_lookup c l k : Py.update c l !!! k = c !!! k + count_in k l.
Proof.
  revert c. induction l as [|x l IH]; intros c.
  - simpl. unfold count_in. simpl. lia.
  - rewrite update_cons, IH, count_in_cons.
    destruct (decide (x = k)) as [->|Hne].
    + rewrite incr_lookup_eq. lia.
    + rewrite incr_lookup_ne by done. lia.
Qed.

Lemma dom_incr c k : dom (Py.incr k c) = {[ k ]} ∪ dom c.
Proof. unfold Py.incr. by rewrite dom_insert_L. Qed.

Lemma dom_update c l : dom (Py.update c l) = dom c ∪ list_to_set l.
Proof.
  revert c. induction l as [|x l IH]; intros c.
  - simpl. set_solver.
  - rewrite update_cons, IH, dom_incr. set_solver.
Qed.

Lemma sum_values_insert c k v :
  c !! k = None → Py.sum_values (<[k := v]> c) = v + Py.sum_values c.
Proof.
  intros Hk. unfold Py.sum_values.
  rewrite map_fold_insert_L; [done| |done].
  intros. lia.
Qed.

Lemma lookup_le_sum_values c k : c !!! k ≤ Py.sum_values c.
Proof.
  induction c as [|k' v c Hk' IH] using map_ind.
  - by rewrite lookup_total_empty.
  - rewrite sum_values_insert by done.
    destruct (decide (k' = k)) as [->|Hne].
    + rewrite lookup_total_insert_eq. lia.
    + rewrite lookup_total_insert_ne by done. lia.
Qed.
End counters.

(** ** [build_model] *)

Section build.
Import Language_Model.

Lemma for_each_fmap {A B S} (body : S → B → result S) (f : A → B) xs s :
  for_each body (f <$> xs) s = for_each (fun s' x => body s' (f x)) xs s.
Proof.
  revert s. induction xs as [|x xs IH]; intros s; [done|].
  cbn [fmap list_fmap for_each]. destruct (body s (f x)); [|done]. apply IH.
Qed.

Lemma for_each_ext {A S} (body1 body2 : S → A → result S) xs s :
  (∀ s' x, x ∈ xs → body1 s' x = body2 s' x) →
  for_each body1 xs s = for_each body2 xs s.
Proof.
  revert s. induction xs as [|x xs IH]; intros s Hb; [done|].
  cbn [for_each]. rewrite Hb by left. destruct (body2 s x); [|done].
  apply IH. intros s' y Hy. apply Hb. by right.
Qed.

Lemma for_each_pure {A S} (step : S → A → S) xs s :
  for_each (fun s' x => Ok (step s' x)) xs s = Ok (foldl step s xs).
Proof. revert s. induction xs as [|x xs IH]; intros s; [done|]. apply IH. Qed.

(** *** The loop over the characters *)

Lemma count_chars_body_0 a b s st :
  count_chars_body (String a (String b s)) st 0
  = Ok (Py.incr (Py.chr a) st.1, Py.incr (String a (String b "")) st.2).
Proof. done. Qed.

Lemma count_chars_body_S a s st i :
  count_chars_body (String a s) st (S i) = count_chars_body s st i.
Proof. done. Qed.

Lemma count_chars_loop s st :
  for_each (count_chars_body s) (seq 0 (String.length s - 1)) st
  = Ok (Py.update st.1 (removelast (Py.list_of_str s)),
        Py.update st.2 (char_pairs s)).
Proof.
  revert st. induction s as [|a s IH]; intros st; [by destruct st|].
  destruct s as [|b s]; [by destruct st|].
  replace (String.length (String a (String b s)) - 1)
    with (S (String.length (String b s) - 1)) by (simpl; lia).
  rewrite <- cons_seq, <- fmap_S_seq. cbn [for_each].
  rewrite count_chars_body_0. cbn [mbind result_bind].
  rewrite for_each_fmap.
  rewrite (for_each_ext _ (count_chars_body (String b s)))
    by (intros; apply count_chars_body_S).
  rewrite IH. done.
Qed.

Lemma list_of_str_last s c :
  Py.str_last s = Some c →
  Py.list_of_str s = removelast (Py.list_of_str s) ++ [Py.chr c].
Proof.
  induction s as [|a s IH]; [done|].
  destruct s as [|b s]; [by intros [= ->]|].
  intros Hl. change (Py.str_last (String a (String b s)))
    with (Py.str_last (String b s)) in Hl.
  cbn [Py.list_of_str] in *. cbn [removelast].
  rewrite <- app_comm_cons. f_equal. by apply IH.
Qed.

Lemma str_last_nonempty s : s ≠ "" → ∃ c, Py.str_last s = Some c.
Proof.
  induction s as [|a s IH]; [done|]. intros _.
  destruct s as [|b s]; [by exists a|]. by apply IH.
Qed.

(** *** The loop over the n-grams *)

Lemma last_slice (tokens : list string) k i :
  1 ≤ k → k ≤ i + 1 → i < length tokens →
  tokens !! i = Some (List.last (Py.slice (i + 1 - k) (i + 1) tokens) "").
Proof.
  intros Hk Hki Hi. unfold Py.slice.
  replace (i + 1 - (i + 1 - k)) with k by lia.
  set (j := i + 1 - k).
  assert (length (take k (drop j tokens)) = k) as Hlen.
  { rewrite length_take, length_drop. lia. }
  destruct (lookup_lt_is_Some_2 tokens i Hi) as [x Hx]. rewrite Hx. f_equal.
  assert (take k (drop j tokens) !! (k - 1) = Some x) as Hl.
  { rewrite lookup_take_lt by lia. rewrite lookup_drop.
    by replace (j + (k - 1)) with i by lia. }
  destruct (take k (drop j tokens)) as [|y w] using rev_ind.
  { simpl in Hlen. lia. }
  rewrite List.last_last. rewrite length_app in Hlen. simpl in Hlen.
  rewrite lookup_app_r in Hl by lia.
  replace (k - 1 - length w) with 0 in Hl by lia. by injection Hl.
Qed.

Lemma count_ngrams_loop k tokens st :
  1 ≤ k → k ≤ length tokens →
  for_each (count_ngrams_body k tokens)
           (seq (k - 1) (length tokens - (k - 1))) st
  = Ok (foldl count_ngram st (windows k tokens)).
Proof.
  intros Hk Hlen.
  rewrite <- windows_seq by done.
  replace (seq (k - 1) (length tokens - (k - 1)))
    with ((fun j => j + (k - 1)) <$> seq 0 (length tokens - k + 1)).
  2:{ replace (length tokens - (k - 1)) with (length tokens - k + 1) by lia.
      pose proof (fmap_add_seq (k - 1) 0 (length tokens - k + 1)) as Hs.
      rewrite Nat.add_0_r in Hs. rewrite <- Hs. apply list_fmap_ext.
      intros ? j _. lia. }
  rewrite for_each_fmap.
  rewrite <- for_each_pure, for_each_fmap.
  apply for_each_ext. intros st' j Hj%elem_of_seq.
  unfold count_ngrams_body, index.
  rewrite (last_slice tokens k) by lia.
  cbn [mbind result_bind]. unfold count_ngram, add_suggestion.
  by replace (j + (k - 1) + 1 - k) with j by lia;
     replace (j + (k - 1) + 1) with (j + k) by lia.
Qed.

Lemma foldl_count_ngram st l :
  foldl count_ngram st l
  = (Py.update st.1 l, foldl add_suggestion st.2 l).
Proof.
  revert st. induction l as [|w l IH]; intros st; [by destruct st|].
  cbn [foldl]. rewrite IH. done.
Qed.

(** *** The whole call *)

Lemma build_model_empty m text :
  normalize_text text = "" → build_model m text = Raise IndexError.
Proof. intros Hempty. unfold build_model. by rewrite Hempty. Qed.

Lemma build_model_nonempty m text :
  1 ≤ n m → normalize_text text ≠ "" →
  build_model m text = Ok (trained m text).
Proof.
  intros Hn Hne. unfold build_model.
  rewrite count_chars_loop. cbn [mbind result_bind fst snd].
  destruct (str_last_nonempty _ Hne) as [c Hc].
  unfold str_index_last. rewrite Hc. cbn [mbind result_bind].
  rewrite count_ngrams_loop by (rewrite ?length_pad; lia).
  cbn [mbind result_bind]. rewrite foldl_count_ngram. cbn [fst snd].
  rewrite <- update_snoc, <- list_of_str_last by done.
  done.
Qed.

Lemma build_model_Ok m text m' :
  1 ≤ n m →
  build_model m text = Ok m' ↔ normalize_text text ≠ "" ∧ m' = trained m text.
Proof.
  intros Hn. split.
  - intros Hb. destruct (decide (normalize_text text = "")) as [He|Hne].
    + by rewrite build_model_empty in Hb.
    + rewrite build_model_nonempty in Hb by done. by injection Hb.
  - intros [Hne ->]. by apply build_model_nonempty.
Qed.
End build.

Section build2.
Import Language_Model.

(** C10: [build_model] does not complete on a text whose normalized form is
    empty (the empty text, or one of punctuation and digits only): reading
    the last character of the normalized text raises an [IndexError]. *)
Theorem build_model_raises_on_empty_text m text :
  normalize_text text = "" →
  str_index_last (normalize_text text) = Raise IndexError
  ∧ build_model m text = Raise IndexError.
Proof.
  intros Hempty. split.
  - by rewrite Hempty.
  - by apply build_model_empty.
Qed.

Lemma build_model_raises_on_empty_text_witness :
  normalize_text "12, 34... (56)!" = ""
  ∧ build_model (init 3 false) "12, 34... (56)!" = Raise IndexError.
Proof.
  split; [reflexivity|].
  apply (build_model_raises_on_empty_text (init 3 false) "12, 34... (56)!").
  reflexivity.
Defined.

Lemma tokenize_empty m : tokenize m "" = [].
Proof. unfold tokenize. by destruct (chars m). Qed.

Lemma text_tokens_nonempty m text :
  text_tokens m text ≠ [] → normalize_text text ≠ "".
Proof.
  intros Htok Hempty. apply Htok. unfold text_tokens.
  rewrite Hempty. apply tokenize_empty.
Qed.

Lemma text_tokens_trained m text text' :
  text_tokens (trained m text) text' = text_tokens m text'.
Proof. done. Qed.

Lemma text_ngrams_trained m text text' :
  text_ngrams (trained m text) text' = text_ngrams m text'.
Proof. done. Qed.

Lemma trained_tokens_seen m text token :
  token ∈ text_tokens m text →
  is_Some (freq_tokens (trained m text) !! token).
Proof.
  intros Hin. apply elem_of_dom. cbn [trained freq_tokens].
  rewrite dom_update. apply elem_of_union_r. by apply elem_of_list_to_set.
Qed.

(** C3: after [build_model] on a text with at least one token,
    [evaluate_text] on the same text returns a finite number: every token
    of the text is then in [freq_tokens], so no window is smoothed, and a
    window of probability zero contributes [log(1e-8)]. *)
Theorem evaluate_after_build_finite m text :
  1 ≤ n m → text_tokens m text ≠ [] →
  ∃ m' r,
    build_model m text = Ok m'
    ∧ (∀ token, token ∈ text_tokens m text →
                is_Some (freq_tokens m' !! token))
    ∧ evaluate_text m' text = Ok (Py.Fin r).
Proof.
  intros Hn Htok. exists (trained m text).
  eexists. split; [|split].
  - apply build_model_nonempty; [done|]. by apply (text_tokens_nonempty m).
  - intros token. apply trained_tokens_seen.
  - rewrite evaluate_text_windows by done.
    rewrite text_tokens_trained, text_ngrams_trained.
    assert (any_unseen (trained m text) (text_tokens m text) = false) as ->.
    { apply any_unseen_false. intros token. apply trained_tokens_seen. }
    rewrite (mapM_Ok_fmap _ (raw_frequency (trained m text))); [done|].
    intros w Hw. apply relative_frequency_raw.
    by eapply (windows_nonempty (n m)).
Qed.

Lemma evaluate_after_build_finite_witness :
  ∃ m' r,
    build_model (init 2 false) "the cat sat" = Ok m'
    ∧ (∀ token, token ∈ text_tokens (init 2 false) "the cat sat" →
                is_Some (freq_tokens m' !! token))
    ∧ evaluate_text m' "the cat sat" = Ok (Py.Fin r).
Proof.
  apply (evaluate_after_build_finite (init 2 false) "the cat sat").
  - simpl. lia.
  - vm_compute. discriminate.
Defined.
End build2.

Section accumulate.
Import Language_Model.

Lemma removelast_snoc {A} (l : list A) x : removelast (l ++ [x]) = l.
Proof. by rewrite removelast_app, app_nil_r. Qed.

Lemma snoc_removelast_last (w : list string) :
  w ≠ [] → w = removelast w ++ [List.last w ""].
Proof. intros Hw. by apply app_removelast_last. Qed.

Lemma add_suggestion_lookup sg w context token :
  w ≠ [] →
  (add_suggestion sg w !!! context) !!! token
  = (sg !!! context) !!! token
    + (if decide (w = context ++ [token]) then 1 else 0).
Proof.
  intros Hw. unfold add_suggestion.
  destruct (decide (removelast w = context)) as [Hc|Hc].
  - rewrite Hc, lookup_total_insert_eq.
    destruct (decide (List.last w "" = token)) as [Ht|Ht].
    + rewrite Ht, incr_lookup_eq.
      rewrite decide_True; [lia|].
      rewrite (snoc_removelast_last w Hw). by rewrite Hc, Ht.
    + rewrite incr_lookup_ne by done.
      rewrite decide_False; [lia|].
      intros ->. apply Ht. by rewrite List.last_last.
  - rewrite lookup_total_insert_ne by done.
    rewrite decide_False; [lia|].
    intros ->. apply Hc. by rewrite removelast_snoc.
Qed.

Lemma suggestions_lookup sg ws context token :
  (∀ w, w ∈ ws → w ≠ []) →
  (foldl add_suggestion sg ws !!! context) !!! token
  = (sg !!! context) !!! token + count_in (context ++ [token]) ws.
Proof.
  revert sg. induction ws as [|w ws IH]; intros sg Hws.
  - unfold count_in. simpl. lia.
  - cbn [foldl]. rewrite IH by (intros; apply Hws; by right).
    rewrite add_suggestion_lookup by (apply Hws; by left).
    rewrite count_in_cons. lia.
Qed.

Lemma text_ngrams_nonempty m text w :
  1 ≤ n m → w ∈ text_ngrams m text → w ≠ [].
Proof. intros Hn. by apply windows_nonempty. Qed.

(** the tables after one completed call *)
Lemma trained_counts m text :
  1 ≤ n m →
  let m' := trained m text in
  (∀ g, model_dict m' !!! g
        = model_dict m !!! g + count_in g (text_ngrams m text))
  ∧ (∀ context token,
       (suggestions m' !!! context) !!! token
       = (suggestions m !!! context) !!! token
         + count_in (context ++ [token]) (text_ngrams m text))
  ∧ (∀ token, freq_tokens m' !!! token
              = freq_tokens m !!! token + count_in token (text_tokens m text))
  ∧ (∀ c, char_counts m' !!! c
          = char_counts m !!! c + count_in c (text_chars text))
  ∧ (∀ p, char_pair m' !!! p
          = char_pair m !!! p + count_in p (text_char_pairs text))
  ∧ vocab m'
    = vocab m ∪ dom (freq_tokens m) ∪ list_to_set (text_tokens m text).
Proof.
  intros Hn m'. subst m'. cbn [trained model_dict suggestions freq_tokens
    char_counts char_pair vocab].
  repeat split; intros; rewrite ?update_lookup; try done.
  - apply suggestions_lookup. intros w. by apply text_ngrams_nonempty.
  - rewrite dom_update. by rewrite (assoc_L (∪)).
Qed.

Lemma build_model_vocab m text m' :
  build_model m text = Ok m' →
  vocab m' = vocab m ∪ dom (Py.update (freq_tokens m) (text_tokens m text)).
Proof.
  unfold build_model.
  intros (st & _ & (c & _ & (tb & _ & [= <-])%bind_Ok)%bind_Ok)%bind_Ok.
  done.
Qed.

Lemma build_model_vocab_subseteq m text m' :
  build_model m text = Ok m' → vocab m ⊆ vocab m'.
Proof. intros ->%build_model_vocab. apply union_subseteq_l. Qed.

Lemma built_from_vocab m m' : built_from m m' → vocab m ⊆ vocab m'.
Proof.
  induction 1 as [|m1 text m2 _ IH Hb]; [done|].
  etrans; [apply IH|]. by eapply build_model_vocab_subseteq.
Qed.

(** C9: [build_model] accumulates.  After a call on [text1] and a call on
    [text2] every count table holds what it held before plus the
    occurrences in each text (the n-grams of each text being those of its
    own padded tokens), and the vocabulary holds the tokens of both; the
    vocabulary before a sequence of calls is included in the one after. *)
Theorem build_model_accumulates m text1 text2 m1 m2 :
  1 ≤ n m →
  build_model m text1 = Ok m1 → build_model m1 text2 = Ok m2 →
  (∀ g, model_dict m2 !!! g
        = model_dict m !!! g
          + count_in g (text_ngrams m text1)
          + count_in g (text_ngrams m text2))
  ∧ (∀ context token,
       (suggestions m2 !!! context) !!! token
       = (suggestions m !!! context) !!! token
         + count_in (context ++ [token]) (text_ngrams m text1)
         + count_in (context ++ [token]) (text_ngrams m text2))
  ∧ (∀ token, freq_tokens m2 !!! token
              = freq_tokens m !!! token
                + count_in token (text_tokens m text1)
                + count_in token (text_tokens m text2))
  ∧ (∀ c, char_counts m2 !!! c
          = char_counts m !!! c
            + count_in c (text_chars text1) + count_in c (text_chars text2))
  ∧ (∀ p, char_pair m2 !!! p
          = char_pair m !!! p
            + count_in p (text_char_pairs text1)
            + count_in p (text_char_pairs text2))
  ∧ vocab m2
    = vocab m ∪ dom (freq_tokens m)
      ∪ list_to_set (text_tokens m text1) ∪ list_to_set (text_tokens m text2)
  ∧ vocab m ⊆ vocab m1 ∧ vocab m1 ⊆ vocab m2
  ∧ (∀ m', built_from m2 m' → vocab m ⊆ vocab m').
Proof.
  intros Hn [_ ->]%build_model_Ok; [|done].
  intros [_ ->]%build_model_Ok; [|done].
  destruct (trained_counts m text1 Hn) as (Hd1 & Hs1 & Hf1 & Hc1 & Hp1 & Hv1).
  destruct (trained_counts (trained m text1) text2 Hn)
    as (Hd2 & Hs2 & Hf2 & Hc2 & Hp2 & Hv2).
  rewrite text_ngrams_trained in Hd2, Hs2.
  rewrite text_tokens_trained in Hf2, Hv2.
  repeat split.
  - intros g. by rewrite Hd2, Hd1.
  - intros context token. by rewrite Hs2, Hs1.
  - intros token. by rewrite Hf2, Hf1.
  - intros c. by rewrite Hc2, Hc1.
  - intros p. by rewrite Hp2, Hp1.
  - rewrite Hv2, Hv1. cbn [trained freq_tokens]. rewrite dom_update.
    set_solver.
  - rewrite Hv1. set_solver.
  - rewrite Hv2. set_solver.
  - intros m' Hb%built_from_vocab. rewrite Hv2, Hv1 in Hb. set_solver.
Qed.

Lemma build_model_accumulates_witness :
  let m := init 2 false in
  let m1 := trained m "the cat" in
  let m2 := trained m1 "the mat" in
  build_model m "the cat" = Ok m1 ∧ build_model m1 "the mat" = Ok m2
  ∧ model_dict m2 !!! ["<s>"; "the"] = 2
  ∧ vocab m1 ⊆ vocab m2.
Proof.
  intros m m1 m2.
  assert (build_model m "the cat" = Ok m1) as H1 by (vm_compute; reflexivity).
  assert (build_model m1 "the mat" = Ok m2) as H2 by (vm_compute; reflexivity).
  assert (1 ≤ n m) as Hn by (simpl; lia).
  destruct (build_model_accumulates m "the cat" "the mat" m1 m2 Hn H1 H2)
    as (Hd & _ & _ & _ & _ & _ & _ & Hv & _).
  split; [done|]. split; [done|]. split; [|done].
  rewrite Hd. vm_compute. reflexivity.
Defined.
End accumulate.

(** ** [smooth] *)

Section smooth.
Import Language_Model.

Lemma reachable_n m : reachable m → 1 ≤ n m.
Proof.
  induction 1 as [|m text m' _ IH Hb]; [done|].
  apply build_model_Ok in Hb as [_ ->]; done.
Qed.

(** the two tables of n-gram counts agree in every reachable state *)
Lemma reachable_counts m context token :
  reachable m →
  model_dict m !!! (context ++ [token]) = context_next_count m context token.
Proof.
  unfold context_next_count.
  induction 1 as [n0 chars0 Hn|m text m' Hr IH Hb].
  - cbn [init model_dict suggestions]. by rewrite !lookup_total_empty.
  - pose proof (reachable_n m Hr) as Hn.
    apply build_model_Ok in Hb as [_ ->]; [|done].
    destruct (trained_counts m text Hn) as (Hd & Hs & _).
    by rewrite Hd, Hs, IH.
Qed.

Lemma smooth_value m ngram :
  ngram ≠ [] → vocab m ≠ ∅ → smooth m ngram = Ok (laplace_estimate m ngram).
Proof.
  intros Hng Hv. unfold smooth, laplace_estimate, context_total.
  rewrite index_last_nonempty by done. cbn [mbind result_bind].
  change (default 0 (model_dict m !! ngram)) with (model_dict m !!! ngram).
  apply truediv_nonzero, inject_nat_nonzero.
  unfold get_vocab.
  assert (size (vocab m) ≠ 0) by (intros ?%size_empty_iff%leibniz_equiv; done).
  lia.
Qed.

Lemma laplace_estimate_pos m ngram :
  vocab m ≠ ∅ → (0 < laplace_estimate m ngram)%Q.
Proof.
  intros Hv. unfold laplace_estimate.
  assert (size (vocab m) ≠ 0) as Hs by (intros ?%size_empty_iff%leibniz_equiv; done).
  apply Qlt_shift_div_l.
  - unfold Qlt. simpl. lia.
  - unfold Qlt. simpl. lia.
Qed.

Lemma laplace_estimate_le_1 m ngram :
  reachable m → vocab m ≠ ∅ → ngram ≠ [] →
  (laplace_estimate m ngram <= 1)%Q.
Proof.
  intros Hr Hv Hng. unfold laplace_estimate.
  assert (size (vocab m) ≠ 0) as Hs by (intros ?%size_empty_iff%leibniz_equiv; done).
  rewrite (snoc_removelast_last ngram Hng) at 1.
  rewrite reachable_counts by done.
  pose proof (lookup_le_sum_values
                (suggestions m !!! removelast ngram) (List.last ngram ""))
    as Hle.
  fold (context_next_count m (removelast ngram) (List.last ngram "")) in Hle.
  fold (context_total m (removelast ngram)) in Hle.
  apply Qle_shift_div_r.
  - unfold Qlt. simpl. lia.
  - unfold Qle. simpl. lia.
Qed.

(** C6, as the code has it: in a state reached by completed [build_model]
    calls whose vocabulary is not empty, [smooth] returns for every
    non-empty n-gram the estimate (count + 1) / (context total + size of
    the vocabulary), which is greater than 0 and at most 1. *)
Theorem smooth_laplace_bounds m ngram :
  reachable m → vocab m ≠ ∅ → ngram ≠ [] →
  smooth m ngram = Ok (laplace_estimate m ngram)
  ∧ (0 < laplace_estimate m ngram)%Q
  ∧ (laplace_estimate m ngram <= 1)%Q.
Proof.
  intros Hr Hv Hng. split; [|split].
  - by apply smooth_value.
  - by apply laplace_estimate_pos.
  - by apply laplace_estimate_le_1.
Qed.

Lemma smooth_laplace_bounds_witness :
  let m := trained (init 2 false) "the cat sat" in
  smooth m ["the"; "cat"] = Ok (laplace_estimate m ["the"; "cat"])
  ∧ (0 < laplace_estimate m ["the"; "cat"])%Q
  ∧ (laplace_estimate m ["the"; "cat"] <= 1)%Q.
Proof.
  intros m. apply (smooth_laplace_bounds m ["the"; "cat"]).
  - apply (reachable_build (init 2 false) "the cat sat").
    + apply reachable_init. lia.
    + vm_compute. reflexivity.
  - apply (non_empty_inhabited_L "the"), (bool_decide_unpack _).
    by vm_compute.
  - discriminate.
Defined.

(** C6 fails in the state the constructor leaves: the vocabulary is empty
    and no context has been counted, so the division is by zero. *)
Lemma smooth_untrained_raises :
  smooth (init 3 false) ["<s>"; "<s>"; "a"] = Raise ZeroDivisionError
  ∧ ¬ (∃ q, smooth (init 3 false) ["<s>"; "<s>"; "a"] = Ok q
            ∧ (0 < q)%Q ∧ (q <= 1)%Q).
Proof.
  assert (smooth (init 3 false) ["<s>"; "<s>"; "a"] = Raise ZeroDivisionError)
    as Hs by (vm_compute; reflexivity).
  split; [done|]. intros (q & Hq & _). congruence.
Qed.
End smooth.

(** ** Slices of strings *)

Section strings.
Implicit Types (s w L R : string) (c : ascii) (i : nat).

Lemma append_nil_l s : "" +:+ s = s.
Proof. done. Qed.

Lemma append_cons c s1 s2 : String c s1 +:+ s2 = String c (s1 +:+ s2).
Proof. done. Qed.

Lemma length_append s1 s2 :
  String.length (s1 +:+ s2) = String.length s1 + String.length s2.
Proof.
  induction s1 as [|c s1 IH]; [done|].
  rewrite append_cons. simpl. by rewrite IH.
Qed.

Lemma str_take_drop i w : Py.str_take i w +:+ Py.str_drop i w = w.
Proof.
  revert i. induction w as [|c w IH]; intros [|i]; try done.
  cbn [Py.str_take Py.str_drop]. by rewrite append_cons, IH.
Qed.

Lemma length_str_take i w :
  i ≤ String.length w → String.length (Py.str_take i w) = i.
Proof.
  revert i. induction w as [|c w IH]; intros [|i] Hi; simpl in *;
    try done; try lia.
  rewrite IH; lia.
Qed.

Lemma length_str_drop i w :
  String.length (Py.str_drop i w) = String.length w - i.
Proof. revert i. induction w as [|c w IH]; intros [|i]; simpl; auto. Qed.

Lemma str_get_drop i w c :
  Py.str_get i w = Some c ↔ ∃ R, Py.str_drop i w = String c R.
Proof.
  revert i. induction w as [|a w IH]; intros i.
  - destruct i; simpl; split; [done| |done|]; by intros [? ?].
  - destruct i as [|i]; simpl.
    + split; [intros [= ->]; by eexists|]. by intros [R [= -> _]].
    + apply IH.
Qed.


Lemma str_get_lt i w c : Py.str_get i w = Some c → i < String.length w.
Proof.
  revert i. induction w as [|a w IH]; intros [|i]; simpl; try done; try lia.
  intros ?%IH. lia.
Qed.
End strings.

(** ** [edits1] *)

Section edits.
Import Spell_Checker.
Implicit Types (w word L R : string).

Lemma elem_of_splits word L R :
  (L, R) ∈ splits word ↔
  ∃ i, i ≤ String.length word
       ∧ L = Py.str_take i word ∧ R = Py.str_drop i word.
Proof.
  unfold splits. rewrite list_elem_of_fmap. split.
  - intros (i & [= -> ->] & Hi%elem_of_seq). exists i. split; [lia|done].
  - intros (i & Hi & -> & ->). exists i. split; [done|].
    apply elem_of_seq. lia.
Qed.

Lemma splits_append word L R : (L, R) ∈ splits word → L +:+ R = word.
Proof. intros (i & _ & -> & ->)%elem_of_splits. apply str_take_drop. Qed.

Lemma deletes_length word x :
  x ∈ deletes word → String.length x + 1 = String.length word.
Proof.
  unfold deletes. intros ([L R] & Hx & HLR)%list_elem_of_bind.
  destruct (decide (R = "")) as [|HR]; [by apply elem_of_nil in Hx|].
  apply list_elem_of_singleton in Hx as ->.
  apply splits_append in HLR as <-.
  rewrite !length_append, length_str_drop.
  destruct R; [done|]. simpl. lia.
Qed.

Lemma inserts_length word x :
  x ∈ inserts word → String.length x = String.length word + 1.
Proof.
  unfold inserts. intros ([L R] & Hx & HLR)%list_elem_of_bind.
  apply list_elem_of_bind in Hx as (c & Hx & _).
  apply list_elem_of_singleton in Hx as ->.
  apply splits_append in HLR as <-.
  rewrite !length_append. simpl. lia.
Qed.


Lemma replaces_self word :
  word ∈ replaces word ↔
  ∃ i c, Py.str_get i word = Some c ∧ c ∈ letters.
Proof.
  unfold replaces. rewrite list_elem_of_bind. split.
  - intros ([L R] & Hx & (i & Hi & -> & HR)%elem_of_splits).
    destruct (decide (R = "")) as [|HRne]; [by apply elem_of_nil in Hx|].
    apply list_elem_of_bind in Hx as (c & Hx & Hc).
    apply list_elem_of_singleton in Hx.
    destruct R as [|r R']; [done|]. symmetry in HR.
    pose proof (str_take_drop i word) as Hw. rewrite HR in Hw.
    rewrite <- Hw in Hx at 1. apply (inj _) in Hx.
    injection Hx as ->.
    exists i, c. split; [|done]. apply str_get_drop. by eexists.
  - intros (i & c & (R & HR)%str_get_drop & Hc).
    exists (Py.str_take i word, Py.str_drop i word). split.
    + rewrite HR. rewrite decide_False by done.
      apply list_elem_of_bind. exists c. split; [|done].
      apply list_elem_of_singleton.
      rewrite <- (str_take_drop i word) at 1. by rewrite HR.
    + apply elem_of_splits. exists i. split; [|done].
      assert (i < String.length word); [|lia].
      apply (str_get_lt i word c), str_get_drop. by eexists.
Qed.

Lemma elem_of_edits1 word x :
  x ∈ edits1 word ↔
  x ∈ deletes word ∨ x ∈ transposes word ∨ x ∈ replaces word
  ∨ x ∈ inserts word.
Proof. unfold edits1. by rewrite elem_of_list_to_set, !elem_of_app. Qed.

Lemma elem_of_inserts_head word : String "a" word ∈ inserts word.
Proof.
  unfold inserts. apply list_elem_of_bind. exists ("", word). split.
  - apply list_elem_of_bind. exists "a"%char. split; [by left|by left].
  - apply elem_of_splits. exists 0. split; [lia|]. by destruct word.
Qed.

Lemma elem_of_deletes_head c word : word ∈ deletes (String c word).
Proof.
  unfold deletes. apply list_elem_of_bind. exists ("", String c word). split.
  - rewrite decide_False by done. apply list_elem_of_singleton.
    by destruct word.
  - apply elem_of_splits. exists 0. split; [lia|done].
Qed.

Lemma str_take_app L X : Py.str_take (String.length L) (L +:+ X) = L.
Proof.
  induction L as [|c L IH]; [by destruct X|].
  rewrite append_cons. cbn [String.length Py.str_take]. by rewrite IH.
Qed.

Lemma str_drop_app L X k :
  Py.str_drop (String.length L + k) (L +:+ X) = Py.str_drop k X.
Proof.
  induction L as [|c L IH]; [done|].
  rewrite append_cons. cbn [String.length Nat.add Py.str_drop]. by rewrite IH.
Qed.

Lemma str_get_app L X k :
  Py.str_get (String.length L + k) (L +:+ X) = Py.str_get k X.
Proof.
  induction L as [|c L IH]; [done|].
  rewrite append_cons. cbn [String.length Nat.add]. by rewrite <- IH.
Qed.



(** the word [a] is in [edits1] of itself: substituting [a] for its only
    character yields it, and so does deleting the character and inserting
    [a] into the empty string *)
Example edits1_a :
  "a" ∈ edits1 "a" ∧ "" ∈ deletes "a" ∧ "a" ∈ inserts "".
Proof.
  assert ("a" ∈ replaces "a") as Hr.
  { apply replaces_self. exists 0, "a"%char. split; [done|].
    apply (bool_decide_unpack _). by vm_compute. }
  split; [apply elem_of_edits1; auto|].
  split; [apply elem_of_deletes_head|apply (elem_of_inserts_head "")].
Qed.
End edits.

(** ** [get_candidates] *)

Section candidates.
Import Spell_Checker.
Context (sc : Spell_Checker.t) (m : Language_Model.t).
Hypothesis Hlm : lm sc = Some m.

Lemma known_vocab words :
  known sc words = Ok (list_to_set words ∩ Language_Model.vocab m).
Proof.
  unfold known, the_lm. rewrite Hlm.
  destruct words as [|word words]; cbn [mbind result_bind].
  { f_equal. set_solver. }
  f_equal. apply set_eq. intros x.
  rewrite elem_of_list_to_set, list_elem_of_filter, elem_of_intersection,
    elem_of_list_to_set.
  unfold Language_Model.get_vocab. tauto.
Qed.

Lemma list_to_set_edits2 word :
  list_to_set (edits2 word) =@{gset string} set_bind edits1 (edits1 word).
Proof.
  apply set_eq. intros x. unfold edits2.
  rewrite elem_of_list_to_set, list_elem_of_bind, elem_of_set_bind.
  split.
  - intros (e1 & (e2 & ->%list_elem_of_singleton & He2%elem_of_elements)
                   %list_elem_of_bind & He1%elem_of_elements).
    eauto.
  - intros (e1 & He1 & He2). exists e1. split; [|by apply elem_of_elements].
    apply list_elem_of_bind. exists x. split; [by left|].
    by apply elem_of_elements.
Qed.

Lemma get_candidates_eq word :
  get_candidates sc word
  = Ok (let V := Language_Model.vocab m in
        if decide (word ∈ V) then {[ word ]}
        else if decide (edits1 word ∩ V = ∅) then
               if decide (set_bind edits1 (edits1 word) ∩ V = ∅)
               then {[ word ]}
               else set_bind edits1 (edits1 word) ∩ V
             else edits1 word ∩ V).
Proof.
  unfold get_candidates. rewrite !known_vocab. cbn [mbind result_bind].
  rewrite list_to_set_elements_L, list_to_set_edits2.
  assert (list_to_set [word] ∩ Language_Model.vocab m
          = if decide (word ∈ Language_Model.vocab m)
            then ({[ word ]} : gset string) else ∅) as ->.
  { destruct (decide _); set_solver. }
  cbn zeta.
  destruct (decide (word ∈ Language_Model.vocab m)).
  { rewrite decide_False; [done|]. set_solver. }
  rewrite decide_True by done.
  destruct (decide (edits1 word ∩ _ = ∅)); [|done].
  by destruct (decide (set_bind edits1 (edits1 word) ∩ _ = ∅)).
Qed.

(** C2: [get_candidates] is a cascade.  A word of the vocabulary gives
    exactly the set of that word; otherwise the known words among
    [edits1(word)] if there are any; otherwise the known words among
    [edits2(word)] if there are any; otherwise the set of the word. *)
Theorem get_candidates_cascade word :
  let V := Language_Model.vocab m in
  let known1 := edits1 word ∩ V in
  let known2 := set_bind edits1 (edits1 word) ∩ V in
  (word ∈ V → get_candidates sc word = Ok {[ word ]})
  ∧ (word ∉ V → known1 ≠ ∅ → get_candidates sc word = Ok known1)
  ∧ (word ∉ V → known1 = ∅ → known2 ≠ ∅ →
     get_candidates sc word = Ok known2)
  ∧ (word ∉ V → known1 = ∅ → known2 = ∅ →
     get_candidates sc word = Ok {[ word ]}).
Proof.
  intros V known1 known2. rewrite get_candidates_eq. cbn zeta.
  fold V. fold known1. fold known2.
  repeat split; intros; repeat case_decide; done.
Qed.
End candidates.

Lemma get_candidates_cascade_witness :
  let m := trained (Language_Model.init 2 false) "hello the" in
  let sc := Spell_Checker.mk (Some m) None in
  Spell_Checker.get_candidates sc "the" = Ok {[ "the" ]}.
Proof.
  intros m sc.
  apply (proj1 (get_candidates_cascade sc m eq_refl "the")).
  apply (bool_decide_unpack _). by vm_compute.
Defined.

(** ** The error model *)

Section error_model.
Import Spell_Checker.
Context (sc : Spell_Checker.t) (m : Language_Model.t) (tb : Error_Tables).
Hypothesis Hlm : lm sc = Some m.
Hypothesis Htb : error_tables sc = Some tb.

Lemma first_index_Some test k idx :
  first_index test k = Some idx → idx < k ∧ test idx = true.
Proof.
  unfold first_index. intros [Hin Ht]%List.find_some.
  apply in_seq in Hin. split; [lia|done].
Qed.

Lemma normalized_value weight frequency :
  normalized weight frequency
  = Ok (if decide (frequency = 0) then 0%Q
        else (weight / inject_Z (Z.of_nat frequency))%Q).
Proof.
  unfold normalized. destruct (decide (frequency = 0)); [done|].
  by apply truediv_nonzero, inject_nat_nonzero.
Qed.

Lemma str_index_lt s i :
  i < String.length s → ∃ c, Language_Model.str_index s i = Ok (Py.chr c).
Proof.
  unfold Language_Model.str_index.
  revert i. induction s as [|a s IH]; intros i Hi; simpl in Hi; [lia|].
  destruct i as [|i]; [by exists a|]. apply IH. lia.
Qed.

Lemma pair_before_total word idx c :
  idx < String.length word →
  ∃ p, pair_before word idx (Py.chr c) = Ok (String p (Py.chr c)).
Proof.
  intros Hidx. unfold pair_before.
  destruct (decide (idx = 0)); [by eexists|].
  destruct (str_index_lt word (idx - 1)) as [p ->]; [lia|]. by exists p.
Qed.

Lemma the_lm_Ok : the_lm sc = Ok m.
Proof. unfold the_lm. by rewrite Hlm. Qed.

Lemma the_tables_Ok : the_tables sc = Ok tb.
Proof. unfold the_tables. by rewrite Htb. Qed.

Lemma deletion_probability_total modified_word original_word :
  ∃ q, deletion_probability sc modified_word original_word = Ok q.
Proof.
  unfold deletion_probability. case_decide; [by eexists|].
  destruct (deletion_point _ _) as [idx|] eqn:Hp; [|by eexists].
  apply first_index_Some in Hp as [Hidx _].
  destruct (str_index_lt _ _ Hidx) as [c ->]. cbn [mbind result_bind].
  destruct (pair_before_total modified_word idx c Hidx) as [p ->].
  rewrite the_tables_Ok, the_lm_Ok. cbn [mbind result_bind].
  eexists. apply normalized_value.
Qed.

Lemma insertion_probability_total modified_word original_word :
  ∃ q, insertion_probability sc modified_word original_word = Ok q.
Proof.
  unfold insertion_probability. case_decide; [by eexists|].
  destruct (insertion_point _ _) as [idx|] eqn:Hp; [|by eexists].
  apply first_index_Some in Hp as [Hidx _].
  destruct (str_index_lt _ _ Hidx) as [c ->]. cbn [mbind result_bind].
  destruct (pair_before_total original_word idx c Hidx) as [p ->].
  rewrite the_tables_Ok, the_lm_Ok. cbn [mbind result_bind].
  cbn [Language_Model.str_index Py.str_get mbind result_bind].
  eexists. apply normalized_value.
Qed.

Lemma substitution_probability_total modified_word original_word :
  ∃ q, substitution_probability sc modified_word original_word = Ok q.
Proof.
  unfold substitution_probability. case_decide; [by eexists|].
  destruct (substitution_point _ _) as [[mod_char orig_char]|]; [|by eexists].
  rewrite the_tables_Ok, the_lm_Ok. cbn [mbind result_bind].
  cbn [Language_Model.str_index Py.str_get mbind result_bind].
  eexists. apply normalized_value.
Qed.

Lemma transposition_probability_total modified_word original_word :
  ∃ q, transposition_probability sc modified_word original_word = Ok q.
Proof.
  unfold transposition_probability. case_decide; [by eexists|].
  destruct (transposition_point _ _) as [i|]; [|by eexists].
  rewrite the_tables_Ok, the_lm_Ok. cbn [mbind result_bind].
  eexists. apply normalized_value.
Qed.

(** C7: with a model and the error tables set, each estimator returns a
    number (no division raises); it returns 0 when the frequency that
    normalizes the weight of its key is zero or absent; and when the search
    finds no edit point, deletion, insertion and substitution return 0
    while transposition returns [1e-8].  The search of transposition runs on
    words of equal length; a pair of words whose lengths do not differ as
    the edit requires is answered 0 by all four before any search. *)
Theorem error_estimators_zero_and_floor modified_word original_word :
  ((∃ q, deletion_probability sc modified_word original_word = Ok q)
   ∧ (∃ q, insertion_probability sc modified_word original_word = Ok q)
   ∧ (∃ q, substitution_probability sc modified_word original_word = Ok q)
   ∧ (∃ q, transposition_probability sc modified_word original_word = Ok q))
  ∧ ((∀ idx char key,
        deletion_point modified_word original_word = Some idx →
        Language_Model.str_index modified_word idx = Ok char →
        pair_before modified_word idx char = Ok key →
        get_count (Language_Model.char_pair m) key = 0 →
        deletion_probability sc modified_word original_word = Ok 0%Q)
     ∧ (∀ idx char key first,
          insertion_point modified_word original_word = Some idx →
          Language_Model.str_index original_word idx = Ok char →
          pair_before original_word idx char = Ok key →
          Language_Model.str_index key 0 = Ok first →
          get_count (Language_Model.char_counts m) first = 0 →
          insertion_probability sc modified_word original_word = Ok 0%Q)
     ∧ (∀ mod_char orig_char,
          substitution_point modified_word original_word
          = Some (mod_char, orig_char) →
          get_count (Language_Model.char_counts m) (Py.chr mod_char) = 0 →
          substitution_probability sc modified_word original_word = Ok 0%Q)
     ∧ (∀ i,
          transposition_point modified_word original_word = Some i →
          get_count (Language_Model.char_pair m)
                    (Py.str_slice i (i + 2) original_word) = 0 →
          transposition_probability sc modified_word original_word
          = Ok 0%Q))
  ∧ ((deletion_point modified_word original_word = None →
      deletion_probability sc modified_word original_word = Ok 0%Q)
     ∧ (insertion_point modified_word original_word = None →
        insertion_probability sc modified_word original_word = Ok 0%Q)
     ∧ (substitution_point modified_word original_word = None →
        substitution_probability sc modified_word original_word = Ok 0%Q)
     ∧ (String.length modified_word = String.length original_word →
        transposition_point modified_word original_word = None →
        transposition_probability sc modified_word original_word
        = Ok Language_Model.floor))
  ∧ ((String.length modified_word ≠ String.length original_word + 1 →
      deletion_probability sc modified_word original_word = Ok 0%Q)
     ∧ (String.length modified_word + 1 ≠ String.length original_word →
        insertion_probability sc modified_word original_word = Ok 0%Q)
     ∧ (String.length modified_word ≠ String.length original_word →
        substitution_probability sc modified_word original_word = Ok 0%Q
        ∧ transposition_probability sc modified_word original_word
          = Ok 0%Q)).
Proof.
  split; [|split; [|split]].
  - auto using deletion_probability_total, insertion_probability_total,
      substitution_probability_total, transposition_probability_total.
  - repeat split.
    + intros idx char key Hp Hc Hk Hz. unfold deletion_probability.
      case_decide; [done|]. rewrite Hp, Hc. cbn [mbind result_bind].
      rewrite Hk, the_tables_Ok, the_lm_Ok. cbn [mbind result_bind].
      by rewrite Hz.
    + intros idx char key first Hp Hc Hk Hf Hz. unfold insertion_probability.
      case_decide; [done|]. rewrite Hp, Hc. cbn [mbind result_bind].
      rewrite Hk, the_tables_Ok, the_lm_Ok. cbn [mbind result_bind].
      rewrite Hf. cbn [mbind result_bind]. by rewrite Hz.
    + intros mod_char orig_char Hp Hz. unfold substitution_probability.
      case_decide; [done|]. rewrite Hp, the_tables_Ok, the_lm_Ok.
      change (Py.chr orig_char +:+ Py.chr mod_char)
        with (String orig_char (String mod_char "")).
      cbn [Language_Model.str_index Py.str_get mbind result_bind].
      by rewrite Hz.
    + intros i Hp Hz. unfold transposition_probability.
      case_decide; [done|]. rewrite Hp, the_tables_Ok, the_lm_Ok.
      cbn [mbind result_bind]. by rewrite Hz.
  - repeat split.
    + intros Hp. unfold deletion_probability. case_decide; [done|].
      by rewrite Hp.
    + intros Hp. unfold insertion_probability. case_decide; [done|].
      by rewrite Hp.
    + intros Hp. unfold substitution_probability. case_decide; [done|].
      by rewrite Hp.
    + intros Hlen Hp. unfold transposition_probability.
      rewrite decide_False by (by intros ?). by rewrite Hp.
  - split; [|split]; intros Hlen.
    + unfold deletion_probability. by rewrite decide_True.
    + unfold insertion_probability. by rewrite decide_True.
    + unfold substitution_probability, transposition_probability.
      by rewrite !decide_True.
Qed.
End error_model.

Lemma error_estimators_zero_and_floor_witness :
  let m := trained (Language_Model.init 2 false) "the cat" in
  let tb := Spell_Checker.mk_tables ∅ ∅ {[ "ea" := 1%Q ]} ∅ in
  let sc := Spell_Checker.mk (Some m) (Some tb) in
  Spell_Checker.deletion_probability sc "tha" "the" = Ok 0%Q
  ∧ Spell_Checker.transposition_probability sc "tha" "the"
    = Ok Language_Model.floor.
Proof.
  intros m tb sc.
  destruct (error_estimators_zero_and_floor sc m tb eq_refl eq_refl
              "tha" "the") as (_ & _ & (Hd & _ & _ & Ht) & _).
  split.
  - apply Hd. reflexivity.
  - apply Ht; reflexivity.
Defined.

(** ** [get_correction] and [spell_check] *)

Section correction.
Import Spell_Checker.
Context (sc : Spell_Checker.t) (m : Language_Model.t).
Hypothesis Hlm : lm sc = Some m.

Lemma mapM_total {A B} (f : A → result B) (l : list A) :
  (∀ x, x ∈ l → ∃ y, f x = Ok y) → ∃ ys, mapM f l = Ok ys.
Proof.
  induction l as [|x l IH]; intros Hf; [by eexists|].
  destruct (Hf x) as [y Hy]; [by left|].
  destruct IH as [ys Hys]; [intros; apply Hf; by right|].
  exists (y :: ys). cbn [mapM]. by rewrite Hy, Hys.
Qed.

Lemma evaluate_text_total text :
  1 ≤ Language_Model.n m → Language_Model.vocab m ≠ ∅ →
  ∃ x, Language_Model.evaluate_text m text = Ok x.
Proof.
  intros Hn Hv.
  destruct (decide (text_tokens m text = [])) as [He|Hne].
  { exists Py.NegInf. unfold Language_Model.evaluate_text.
    fold (text_tokens m text). by rewrite He. }
  rewrite evaluate_text_windows by done.
  destruct (mapM_total
              (window_probability m
                 (Language_Model.any_unseen m (text_tokens m text)))
              (text_ngrams m text)) as [probs ->]; [|by eexists].
  intros w Hw. apply (windows_nonempty _ _ _ Hn) in Hw.
  unfold window_probability. destruct (negb _).
  - rewrite relative_frequency_raw by done. by eexists.
  - rewrite smooth_value by done. by eexists.
Qed.

Lemma get_first_edit_probability_total candidate original_word alpha :
  ∃ q, get_first_edit_probability sc candidate original_word alpha = Ok q.
Proof.
  unfold get_first_edit_probability. case_decide as Hd; [by eexists|].
  destruct (error_tables sc) as [tb|] eqn:Htb; [|by destruct Hd; left].
  assert (∀ (b : bool) (r : result Q),
            (∃ q, r = Ok q) → ∃ q, (if b then r else Ok 0%Q) = Ok q) as Hif.
  { intros [] r Hr; [done|by eexists]. }
  destruct (insertion_probability_total sc m tb Hlm Htb candidate original_word)
    as [qi Hi].
  destruct (deletion_probability_total sc m tb Hlm Htb candidate original_word)
    as [qd Hdel].
  destruct (substitution_probability_total sc m tb Hlm Htb
              candidate original_word) as [qs Hs].
  destruct (transposition_probability_total sc m tb Hlm Htb
              candidate original_word) as [qt Ht].
  rewrite Hi, Hdel, Hs, Ht.
  repeat case_decide; cbn [mbind result_bind]; by eexists.
Qed.

Lemma calculate_distance_2_probability_total candidate original_word alpha :
  ∃ q, calculate_distance_2_probability sc candidate original_word alpha
       = Ok q.
Proof.
  unfold calculate_distance_2_probability.
  destruct (get_first_edit_probability_total candidate original_word alpha)
    as [q0 ->]. cbn [mbind result_bind].
  apply for_each_total. intros q [intermediate next_edit] _.
  destruct (get_first_edit_probability_total intermediate original_word alpha)
    as [q1 ->].
  destruct (get_first_edit_probability_total candidate intermediate alpha)
    as [q2 ->].
  by eexists.
Qed.

Lemma compute_error_prob_total candidate original_word alpha :
  ∃ q, compute_error_prob sc candidate original_word alpha = Ok q.
Proof.
  unfold compute_error_prob.
  destruct (get_first_edit_probability_total candidate original_word alpha)
    as [q0 ->].
  destruct (calculate_distance_2_probability_total
              candidate original_word alpha) as [q1 ->].
  by eexists.
Qed.

Lemma compute_candidate_probability_total candidate original_word context
    alpha :
  1 ≤ Language_Model.n m → Language_Model.vocab m ≠ ∅ →
  ∃ r, compute_candidate_probability sc candidate original_word context alpha
       = Ok r.
Proof.
  intros Hn Hv. unfold compute_candidate_probability, the_lm.
  rewrite Hlm. cbn [mbind result_bind].
  destruct (evaluate_text_total (context +:+ " " +:+ candidate) Hn Hv)
    as [x ->].
  destruct (compute_error_prob_total candidate original_word alpha)
    as [q ->].
  by eexists.
Qed.

(** a single candidate is the correction, whatever its score *)
Lemma get_correction_singleton word context alpha candidate :
  1 ≤ Language_Model.n m → Language_Model.vocab m ≠ ∅ →
  get_candidates sc word = Ok {[ candidate ]} →
  get_correction sc word context alpha = Ok candidate.
Proof.
  intros Hn Hv Hc. unfold get_correction. rewrite Hc.
  cbn [mbind result_bind]. rewrite decide_False by set_solver.
  rewrite elements_singleton. cbn [Py.max_by].
  destruct (compute_candidate_probability_total candidate word context alpha
              Hn Hv) as [r ->].
  done.
Qed.

(** *** The scan of the out-of-vocabulary tokens *)

Lemma index_lookup {A} (l : list A) i x :
  l !! i = Some x → Language_Model.index l i = Ok x.
Proof. intros Hl. unfold Language_Model.index. by rewrite Hl. Qed.

Lemma oov_scan_first alpha n0 tokens pre i post token corrected_word :
  (∀ j, j ∈ pre →
        ∃ token_j, tokens !! j = Some token_j
                   ∧ get_correction sc token_j (context_before n0 tokens j)
                                    alpha = Ok token_j) →
  tokens !! i = Some token →
  get_correction sc token (context_before n0 tokens i) alpha
  = Ok corrected_word →
  corrected_word ≠ token →
  oov_scan sc alpha n0 tokens (pre ++ i :: post)
  = Ok (Some (Py.join " " (<[i := corrected_word]> tokens))).
Proof.
  intros Hpre Hi Hc Hne. induction pre as [|j pre IH].
  - cbn [app oov_scan]. rewrite (index_lookup _ _ _ Hi).
    cbn [mbind result_bind]. fold (context_before n0 tokens i).
    rewrite Hc. cbn [mbind result_bind]. by rewrite decide_True.
  - cbn [app oov_scan].
    destruct (Hpre j) as (token_j & Hj & Hcj); [by left|].
    rewrite (index_lookup _ _ _ Hj). cbn [mbind result_bind].
    fold (context_before n0 tokens j). rewrite Hcj.
    cbn [mbind result_bind]. rewrite decide_False by (by intros ?).
    apply IH. intros k Hk. apply Hpre. by right.
Qed.

Lemma oov_indices_nil : oov_indices m [] = [].
Proof. done. Qed.

Lemma spell_check_oov_scan text alpha pre i post token corrected_word :
  let tokens := Py.split (normalize_text text) in
  let n0 := Language_Model.n m in
  n0 ≤ length tokens →
  oov_indices m tokens = pre ++ i :: post →
  (∀ j, j ∈ pre →
        ∃ token_j, tokens !! j = Some token_j
                   ∧ get_correction sc token_j (context_before n0 tokens j)
                                    alpha = Ok token_j) →
  tokens !! i = Some token →
  get_correction sc token (context_before n0 tokens i) alpha
  = Ok corrected_word →
  corrected_word ≠ token →
  spell_check sc text alpha
  = Ok (Py.join " " (<[i := corrected_word]> tokens)).
Proof.
  intros tokens n0 Hlen Hoov Hpre Hi Hc Hne. unfold spell_check.
  fold tokens. destruct tokens as [|token0 tokens'] eqn:Htokens.
  { rewrite oov_indices_nil in Hoov. by destruct pre. }
  rewrite <- Htokens in *. unfold the_lm. rewrite Hlm.
  cbn [mbind result_bind]. unfold Language_Model.get_model_window_size.
  fold n0. rewrite decide_False by lia.
  rewrite Hoov, (oov_scan_first alpha n0 tokens pre i post token
                   corrected_word) by done.
  done.
Qed.
End correction.

Section oov.
Import Spell_Checker.
Context (sc : Spell_Checker.t) (m : Language_Model.t).
Hypothesis Hlm : lm sc = Some m.

Lemma elem_of_oov_indices tokens j :
  j ∈ oov_indices m tokens ↔
  ∃ token, tokens !! j = Some token ∧ token ∉ Language_Model.vocab m.
Proof.
  unfold oov_indices. rewrite list_elem_of_fmap. split.
  - intros ([j' token] & -> & [Hv Hin]%list_elem_of_filter).
    apply elem_of_lookup_imap in Hin as (i & y & [= -> ->] & Hl).
    by exists y.
  - intros (token & Hl & Hv). exists (j, token). split; [done|].
    apply list_elem_of_filter. split; [done|].
    apply elem_of_lookup_imap. by exists j, token.
Qed.

Lemma numbered_filter_sorted (V : gset string) (f : nat → nat) tokens :
  (∀ a b, a < b → f a < f b) →
  StronglySorted lt
    (fst <$> filter (fun it : nat * string => it.2 ∉ V)
                    (imap (fun i token => (f i, token)) tokens)).
Proof.
  revert f. induction tokens as [|token tokens IH]; intros f Hf.
  { constructor. }
  rewrite imap_cons.
  assert (StronglySorted lt
            (fst <$> filter (fun it : nat * string => it.2 ∉ V)
               (imap ((fun i token => (f i, token)) ∘ S) tokens))) as Htail.
  { apply (IH (f ∘ S)). intros a b Hab. apply Hf. lia. }
  rewrite filter_cons. destruct (decide _); [|done].
  cbn [fmap list_fmap fst]. apply StronglySorted_cons. split; [|done].
  apply Forall_forall. intros j ([j' t] & -> & [_ Hin]%list_elem_of_filter)
                                %list_elem_of_fmap.
  apply elem_of_lookup_imap in Hin as (i & y & [= -> ->] & _).
  apply Hf. lia.
Qed.

Lemma oov_indices_sorted tokens : StronglySorted lt (oov_indices m tokens).
Proof. apply (numbered_filter_sorted _ (fun i => i)). auto. Qed.

(** C4, as the code has it: with at least [n] tokens, the scan visits the
    out-of-vocabulary tokens from left to right, across runs; the
    correction of each is computed with the up to [n - 1] tokens before it
    as context; at the first one whose correction differs from the token,
    that token alone is replaced and the sentence is returned. *)
Theorem spell_check_replaces_first_corrected text alpha pre i post token
    corrected_word :
  let tokens := Py.split (normalize_text text) in
  let n0 := Language_Model.n m in
  n0 ≤ length tokens →
  oov_indices m tokens = pre ++ i :: post →
  (∀ j, j ∈ pre →
        ∃ token_j, tokens !! j = Some token_j
                   ∧ get_correction sc token_j (context_before n0 tokens j)
                                    alpha = Ok token_j) →
  tokens !! i = Some token →
  get_correction sc token (context_before n0 tokens i) alpha
  = Ok corrected_word →
  corrected_word ≠ token →
  spell_check sc text alpha
  = Ok (Py.join " " (<[i := corrected_word]> tokens))
  ∧ (token ∉ Language_Model.vocab m)
  ∧ (∀ j, j < i →
          (∃ token_j, tokens !! j = Some token_j
                      ∧ token_j ∉ Language_Model.vocab m) →
          j ∈ pre)
  ∧ (∀ j, j ∈ pre → j < i).
Proof.
  intros tokens n0 Hlen Hoov Hpre Hi Hc Hne.
  pose proof (oov_indices_sorted tokens) as Hs. rewrite Hoov in Hs.
  split; [|split; [|split]].
  - by apply (spell_check_oov_scan sc m Hlm text alpha pre i post token).
  - assert (i ∈ oov_indices m tokens) as Hin by (rewrite Hoov; set_solver).
    apply elem_of_oov_indices in Hin as (token' & Hl & Hv). congruence.
  - intros j Hj Hoovj. apply elem_of_oov_indices in Hoovj.
    rewrite Hoov in Hoovj.
    apply elem_of_app in Hoovj as [Hjp|[->|Hjpost]%elem_of_cons]; [done|lia|].
    apply StronglySorted_app_1_r, StronglySorted_cons in Hs as [Hall _].
    rewrite Forall_forall in Hall. apply Hall in Hjpost. lia.
  - intros j Hj.
    apply (StronglySorted_app_1_elem_of _ _ _ j i Hs); [done|by left].
Qed.
End oov.

(** *** A sentence with two separate unknown tokens *)

Section two_runs.
Import Spell_Checker.

Lemma two_runs_model :
  reachable hello_model ∧ 1 ≤ Language_Model.n hello_model
  ∧ Language_Model.vocab hello_model ≠ ∅.
Proof.
  split; [|split].
  - apply (reachable_build (Language_Model.init 2 false) "hello").
    + apply reachable_init. lia.
    + vm_compute. reflexivity.
  - simpl. lia.
  - apply (non_empty_inhabited_L "hello"), (bool_decide_unpack _).
    by vm_compute.
Qed.

Lemma two_runs_positions :
  two_runs_tokens = ["q"; "hello"; "helo"]
  ∧ oov_indices hello_model two_runs_tokens = [0; 2]
  ∧ first_oov_run hello_model two_runs_tokens = [0].
Proof. repeat split; vm_compute; reflexivity. Qed.

Lemma transposes_length word x :
  x ∈ transposes word → String.length x = String.length word.
Proof.
  unfold transposes. intros ([L R] & Hx & HLR)%list_elem_of_bind.
  destruct R as [|r0 [|r1 R2]]; try by apply elem_of_nil in Hx.
  apply list_elem_of_singleton in Hx as ->.
  apply splits_append in HLR as <-.
  rewrite !length_append. simpl. lia.
Qed.

Lemma replaces_length word x :
  x ∈ replaces word → String.length x = String.length word.
Proof.
  unfold replaces. intros ([L R] & Hx & HLR)%list_elem_of_bind.
  destruct (decide (R = "")) as [|HR]; [by apply elem_of_nil in Hx|].
  apply list_elem_of_bind in Hx as (c & Hx & _).
  apply list_elem_of_singleton in Hx as ->.
  apply splits_append in HLR as <-.
  rewrite !length_append, length_str_drop.
  destruct R; [done|]. simpl. lia.
Qed.

Lemma edits1_length word x :
  x ∈ edits1 word → String.length x ≤ String.length word + 1.
Proof.
  rewrite elem_of_edits1.
  intros [H|[H|[H|H]]].
  - apply deletes_length in H. lia.
  - apply transposes_length in H. lia.
  - apply replaces_length in H. lia.
  - apply inserts_length in H. lia.
Qed.

Lemma hello_vocab : Language_Model.vocab hello_model = {[ "hello" ]}.
Proof. vm_compute. reflexivity. Qed.

Lemma q_no_known_edits :
  edits1 "q" ∩ Language_Model.vocab hello_model = ∅
  ∧ set_bind edits1 (edits1 "q") ∩ Language_Model.vocab hello_model = ∅.
Proof.
  rewrite hello_vocab. split; apply set_eq; intros x;
    rewrite elem_of_intersection, elem_of_singleton; split;
    try (by intros ?%elem_of_empty).
  - intros [Hx%edits1_length ->]. simpl in Hx. lia.
  - intros [(e1 & He1%edits1_length & Hx%edits1_length)%elem_of_set_bind ->].
    simpl in *. lia.
Qed.

Lemma helo_known_edits :
  edits1 "helo" ∩ Language_Model.vocab hello_model = {[ "hello" ]}.
Proof.
  rewrite hello_vocab.
  assert ("hello" ∈ edits1 "helo") as Hin.
  { apply elem_of_edits1. do 3 right. unfold inserts.
    apply list_elem_of_bind. exists ("hel", "o"). split.
    - apply list_elem_of_bind. exists "l"%char. split; [left|].
      apply (bool_decide_unpack _). vm_compute. exact I.
    - apply elem_of_splits. exists 3. split; [simpl; lia|].
      split; reflexivity. }
  apply set_eq. intros x. rewrite elem_of_intersection, elem_of_singleton.
  split; [intros [_ ->]; reflexivity|].
  intros ->. split; [exact Hin|reflexivity].
Qed.

Lemma two_runs_candidates :
  get_candidates hello_checker "q" = Ok {[ "q" ]}
  ∧ get_candidates hello_checker "helo" = Ok {[ "hello" ]}.
Proof.
  destruct q_no_known_edits as [Hq1 Hq2].
  split; rewrite (get_candidates_eq hello_checker hello_model eq_refl);
    cbn zeta.
  - rewrite decide_False
      by (rewrite hello_vocab; intros ?%elem_of_singleton; discriminate).
    rewrite (decide_True _ _ Hq1), (decide_True _ _ Hq2). reflexivity.
  - rewrite decide_False
      by (rewrite hello_vocab; intros ?%elem_of_singleton; discriminate).
    rewrite helo_known_edits. rewrite decide_False; [reflexivity|].
    intros Hs.
    assert ("hello" ∈ (∅ : gset string)) as He
      by (rewrite <- Hs; apply elem_of_singleton; reflexivity).
    exact (not_elem_of_empty _ He).
Qed.
Lemma two_runs_correction_q context alpha :
  get_correction hello_checker "q" context alpha = Ok "q".
Proof.
  destruct two_runs_model as (_ & Hn & Hv).
  destruct two_runs_candidates as [Hq _].
  exact (get_correction_singleton hello_checker hello_model eq_refl
           "q" context alpha "q" Hn Hv Hq).
Qed.

Lemma two_runs_correction_helo context alpha :
  get_correction hello_checker "helo" context alpha = Ok "hello".
Proof.
  destruct two_runs_model as (_ & Hn & Hv).
  destruct two_runs_candidates as [_ Hh].
  exact (get_correction_singleton hello_checker hello_model eq_refl
           "helo" context alpha "hello" Hn Hv Hh).
Qed.

Lemma two_runs_spell_check alpha :
  spell_check hello_checker "q hello helo" alpha = Ok "q hello hello".
Proof.
  destruct two_runs_positions as (Ht & Ho & _).
  rewrite (spell_check_oov_scan hello_checker hello_model eq_refl
             "q hello helo" alpha [0] 2 [] "helo" "hello").
  - fold two_runs_tokens. by rewrite Ht.
  - fold two_runs_tokens. rewrite Ht. simpl. lia.
  - exact Ho.
  - intros j ->%list_elem_of_singleton. exists "q".
    fold two_runs_tokens. rewrite Ht. split; [reflexivity|].
    apply two_runs_correction_q.
  - fold two_runs_tokens. by rewrite Ht.
  - apply two_runs_correction_helo.
  - discriminate.
Qed.

(** C4 fails on [q hello helo] with the vocabulary [hello]: the first run
    of unknown tokens is the token [q] alone, which has no correction; the
    scan goes on to [helo], in a later run, and replaces it. *)
Lemma spell_check_corrects_beyond_first_run :
  spell_check hello_checker "q hello helo" (1 # 2) = Ok "q hello hello"
  ∧ two_runs_tokens = ["q"; "hello"; "helo"]
  ∧ first_oov_run hello_model two_runs_tokens = [0]
  ∧ ¬ (∀ i c,
         spell_check hello_checker "q hello helo" (1 # 2)
         = Ok (Py.join " " (<[i := c]> two_runs_tokens)) →
         i < length two_runs_tokens → two_runs_tokens !! i ≠ Some c →
         i ∈ first_oov_run hello_model two_runs_tokens).
Proof.
  destruct two_runs_positions as (Ht & _ & Hr).
  split; [apply two_runs_spell_check|]. split; [done|]. split; [done|].
  intros Hall. specialize (Hall 2 "hello").
  rewrite Hr, Ht, two_runs_spell_check in Hall.
  apply list_elem_of_singleton in Hall; [lia|reflexivity|simpl; lia|].
  discriminate.
Qed.

Lemma spell_check_replaces_first_corrected_witness :
  spell_check hello_checker "q hello helo" (1 # 2)
  = Ok (Py.join " " (<[2 := "hello"]> two_runs_tokens)).
Proof.
  destruct two_runs_positions as (Ht & Ho & _).
  refine (proj1 (spell_check_replaces_first_corrected hello_checker
                   hello_model eq_refl "q hello helo" (1 # 2)
                   [0] 2 [] "helo" "hello" _ Ho _ _ _ _)).
  - fold two_runs_tokens. rewrite Ht. simpl. lia.
  - intros j ->%list_elem_of_singleton. exists "q".
    fold two_runs_tokens. rewrite Ht. split; [reflexivity|].
    apply two_runs_correction_q.
  - fold two_runs_tokens. by rewrite Ht.
  - apply two_runs_correction_helo.
  - discriminate.
Defined.
End two_runs.

(** * More of the code *)

(** ** Letters *)

Lemma is_lower_letter_spec c : is_lower_letter c ↔ is_lowerb c = true.
Proof.
  unfold is_lower_letter, is_lowerb. cbn zeta.
  rewrite andb_true_iff, !Nat.leb_le. tauto.
Qed.

(** ** Runs of characters *)

Section runs.
Implicit Types (s w acc : string) (c : ascii) (sep : ascii → bool).

Lemma split_go_runs cur s : Py.split_go cur s = runs_go Py.isspace cur s.
Proof.
  revert cur. induction s as [|c s IH]; intros cur; [done|].
  cbn [Py.split_go runs_go]. by rewrite !IH.
Qed.

Lemma findall_word_go_runs cur s :
  findall_word_go cur s = runs_go (fun c => negb (is_word c)) cur s.
Proof.
  revert cur. induction s as [|c s IH]; intros cur; [done|].
  cbn [findall_word_go runs_go]. rewrite !IH. by destruct (is_word c).
Qed.

Lemma append_nil_r s : s +:+ "" = s.
Proof. induction s as [|a s IH]; [done|]. rewrite append_cons. by f_equal. Qed.

Lemma rev_app_rev_app w acc x :
  String.rev_app (String.rev_app w acc) x = String.rev_app acc (w +:+ x).
Proof.
  revert acc x. induction w as [|c w IH]; intros acc x; [done|].
  cbn [String.rev_app]. rewrite IH. done.
Qed.

Lemma rev_rev_app w c : String.rev (String.rev_app w (String c "")) = String c w.
Proof.
  unfold String.rev. rewrite rev_app_rev_app. cbn [String.rev_app].
  by rewrite append_nil_r.
Qed.

Lemma str_Forall_impl (P Q : ascii → Prop) s :
  (∀ c, P c → Q c) → str_Forall P s → str_Forall Q s.
Proof. intros HPQ. induction s as [|c s IH]; [done|]. intros [? ?]. split; auto. Qed.

Lemma str_Forall_append P s1 s2 :
  str_Forall P (s1 +:+ s2) ↔ str_Forall P s1 ∧ str_Forall P s2.
Proof.
  induction s1 as [|c s1 IH]; [cbn; tauto|].
  rewrite append_cons. cbn [str_Forall]. rewrite IH. tauto.
Qed.

(** a word without separator is read in one go *)
Lemma runs_go_word sep w acc s :
  str_Forall (fun c => sep c = false) w →
  runs_go sep (Some acc) (w +:+ s) = runs_go sep (Some (String.rev_app w acc)) s.
Proof.
  revert acc. induction w as [|c w IH]; intros acc Hw; [done|].
  destruct Hw as [Hc Hw]. rewrite append_cons. cbn [runs_go]. rewrite Hc.
  cbn [default String.rev_app]. by apply IH.
Qed.

Lemma runs_go_first_word sep c w s :
  sep c = false → str_Forall (fun c => sep c = false) w →
  runs_go sep None (String c w +:+ s)
  = runs_go sep (Some (String.rev_app w (String c ""))) s.
Proof.
  intros Hc Hw. rewrite append_cons. cbn [runs_go]. rewrite Hc.
  cbn [default]. by apply runs_go_word.
Qed.

Lemma runs_go_join sep ws :
  sep " "%char = true →
  Forall (fun w => w ≠ "" ∧ str_Forall (fun c => sep c = false) w) ws →
  runs_go sep None (Py.join " " ws) = ws.
Proof.
  intros Hsp. induction 1 as [|w ws [Hne Hw] Hws IH]; [done|].
  destruct w as [|c w]; [done|]. destruct Hw as [Hc Hw].
  destruct ws as [|w' ws].
  - cbn [Py.join]. rewrite <- (append_nil_r (String c w)) at 1.
    rewrite runs_go_first_word by done. cbn. by rewrite rev_rev_app.
  - change (Py.join " " (String c w :: w' :: ws))
      with (String c w +:+ " " +:+ Py.join " " (w' :: ws)).
    rewrite runs_go_first_word by done.
    change (" " +:+ Py.join " " (w' :: ws))
      with (String " " (Py.join " " (w' :: ws))).
    cbn [runs_go]. rewrite Hsp. cbn [fmap option_fmap option_map option_list app].
    rewrite rev_rev_app. f_equal. apply IH.
Qed.
End runs.

(** ** The shape of a normalized text *)

Section normal_form.
Implicit Types (s w acc : string) (c : ascii).

Lemma rev_app_Forall (P : ascii → Prop) w acc :
  str_Forall P (String.rev_app w acc) ↔ str_Forall P w ∧ str_Forall P acc.
Proof.
  revert acc. induction w as [|c w IH]; intros acc; [cbn; tauto|].
  cbn [String.rev_app]. rewrite IH. cbn [str_Forall]. tauto.
Qed.

Lemma rev_app_nonempty w acc : acc ≠ "" → String.rev_app w acc ≠ "".
Proof.
  revert acc. induction w as [|c w IH]; intros acc Hacc; [done|].
  cbn [String.rev_app]. by apply IH.
Qed.

Lemma runs_go_Forall (sep : ascii → bool) (P : ascii → Prop) cur s :
  str_Forall P s →
  (∀ acc, cur = Some acc →
          acc ≠ "" ∧ str_Forall (fun c => sep c = false ∧ P c) acc) →
  Forall (fun w => w ≠ "" ∧ str_Forall (fun c => sep c = false ∧ P c) w)
         (runs_go sep cur s).
Proof.
  assert (∀ cur,
    (∀ acc, cur = Some acc →
            acc ≠ "" ∧ str_Forall (fun c => sep c = false ∧ P c) acc) →
    Forall (fun w => w ≠ "" ∧ str_Forall (fun c => sep c = false ∧ P c) w)
           (option_list (String.rev <$> cur))) as Hcur.
  { intros [acc|] Hacc; [|constructor].
    destruct (Hacc acc eq_refl) as [Hne Hall].
    cbn. constructor; [|constructor]. unfold String.rev. split.
    - destruct acc as [|c acc]; [done|]. cbn [String.rev_app].
      by apply rev_app_nonempty.
    - apply rev_app_Forall. by split. }
  revert cur. induction s as [|c s IH]; intros cur Hs Hacc.
  { by apply Hcur. }
  destruct Hs as [Hc Hs]. cbn [runs_go]. destruct (sep c) eqn:Hsep.
  - apply Forall_app. split; [by apply Hcur|]. by apply IH.
  - apply IH; [done|]. intros acc [= <-]. split; [done|].
    split; [done|]. destruct cur as [acc|]; [|done].
    by destruct (Hacc acc eq_refl).
Qed.

Lemma str_lower_Forall s :
  str_Forall (fun c => is_upper c = false) (str_lower s).
Proof.
  induction s as [|c s IH]; [done|]. split; [|done].
  by destruct c as [[] [] [] [] [] [] [] []].
Qed.

Lemma remove_urls_go_Forall (P : ascii → Prop) skip s :
  str_Forall P s → str_Forall P (remove_urls_go skip s).
Proof.
  revert skip. induction s as [|c s IH]; intros skip Hs; [done|].
  destruct Hs as [Hc Hs]. cbn [remove_urls_go].
  destruct (Py.isspace c); [by split; auto|].
  destruct skip; [by auto|].
  destruct (url_at (String c s)); [by auto|by split; auto].
Qed.

Lemma str_filter_Forall (P : ascii → Prop) keep s :
  str_Forall P s →
  str_Forall (fun c => keep c = true ∧ P c) (str_filter keep s).
Proof.
  induction s as [|c s IH]; [done|]. intros [Hc Hs]. cbn [str_filter].
  destruct (keep c) eqn:Hk; [|by auto]. by split; auto.
Qed.

Lemma letter_of_word c :
  is_word c = true → is_digit c = false → is_punctuation c = false →
  is_upper c = false → is_lower_letter c.
Proof.
  intros Hw Hd Hp Hu. apply is_lower_letter_spec.
  revert Hw Hd Hp Hu.
  by destruct c as [[] [] [] [] [] [] [] []]; vm_compute.
Qed.

Lemma letter_not_space c : is_lower_letter c → Py.isspace c = false.
Proof.
  intros Hc%is_lower_letter_spec. revert Hc.
  by destruct c as [[] [] [] [] [] [] [] []]; vm_compute.
Qed.

Lemma letter_is_word c : is_lower_letter c → is_word c = true.
Proof.
  intros Hc%is_lower_letter_spec. revert Hc.
  by destruct c as [[] [] [] [] [] [] [] []]; vm_compute.
Qed.

Lemma letter_facts c :
  is_lower_letter c →
  lower c = c ∧ is_punctuation c = false ∧ is_digit c = false.
Proof.
  intros Hc%is_lower_letter_spec. revert Hc.
  by destruct c as [[] [] [] [] [] [] [] []]; vm_compute.
Qed.

(** the words that [normalize_text] joins *)
Lemma normalize_text_join text :
  normalize_text text = Py.join " " (normalized_words text)
  ∧ Forall is_word_of_letters (normalized_words text).
Proof.
  split; [done|]. unfold normalized_words, findall_word.
  rewrite findall_word_go_runs.
  eapply Forall_impl.
  - eapply (runs_go_Forall _
              (fun c => is_digit c = false ∧ is_punctuation c = false
                        ∧ is_upper c = false)); [|done].
    eapply str_Forall_impl; [|apply str_filter_Forall, str_filter_Forall,
      (remove_urls_go_Forall _ false), str_lower_Forall].
    intros c (Hd%negb_true_iff & Hp%negb_true_iff & Hu). done.
  - intros w [Hne Hw]. split; [done|].
    eapply str_Forall_impl; [|exact Hw].
    intros c (Hw'%negb_false_iff & Hd & Hp & Hu). by apply letter_of_word.
Qed.
End normal_form.

Section idempotent.
Implicit Types (s w : string) (c : ascii).

Lemma join_cons2 w w' ws :
  Py.join " " (w :: w' :: ws) = w +:+ String " " (Py.join " " (w' :: ws)).
Proof. done. Qed.

Lemma join_Forall ws :
  Forall is_word_of_letters ws →
  str_Forall (fun c => is_lower_letter c ∨ c = " "%char) (Py.join " " ws).
Proof.
  induction 1 as [|w ws [_ Hw] Hws IH]; [done|].
  assert (str_Forall (fun c => is_lower_letter c ∨ c = " "%char) w) as Hw'
    by (eapply str_Forall_impl; [|exact Hw]; auto).
  destruct ws as [|w' ws]; [done|].
  rewrite join_cons2. apply str_Forall_append. split; [done|].
  split; [by right|done].
Qed.

Lemma str_lower_id s :
  str_Forall (fun c => is_lower_letter c ∨ c = " "%char) s → str_lower s = s.
Proof.
  induction s as [|c s IH]; [done|]. intros [Hc Hs]. cbn [str_lower].
  rewrite IH by done. f_equal.
  destruct Hc as [Hc| ->]; [by apply letter_facts|done].
Qed.

Lemma str_filter_id keep s :
  str_Forall (fun c => keep c = true) s → str_filter keep s = s.
Proof.
  induction s as [|c s IH]; [done|]. intros [Hc Hs]. cbn [str_filter].
  by rewrite Hc, IH.
Qed.

(** no address starts in a text without a colon *)
Lemma url_at_false s :
  str_Forall (fun c => is_lower_letter c ∨ c = " "%char) s → url_at s = false.
Proof.
  assert (¬ (is_lower_letter ":" ∨ ":"%char = " "%char)) as Hcolon.
  { intros [[H _]|H]; [vm_compute in H; lia|discriminate]. }
  intros Hs.
  destruct s as [|c1 s]; [done|].
  destruct c1 as [[] [] [] [] [] [] [] []]; try reflexivity.
  destruct s as [|c2 s]; [done|].
  destruct c2 as [[] [] [] [] [] [] [] []]; try reflexivity.
  destruct s as [|c3 s]; [done|].
  destruct c3 as [[] [] [] [] [] [] [] []]; try reflexivity.
  destruct s as [|c4 s]; [done|].
  destruct c4 as [[] [] [] [] [] [] [] []]; try reflexivity.
  destruct s as [|c5 s]; [done|].
  destruct Hs as (_ & _ & _ & _ & H5 & Hs).
  destruct c5 as [[] [] [] [] [] [] [] []]; try reflexivity;
    try (by destruct (Hcolon H5)).
  destruct s as [|c6 s]; [done|].
  destruct Hs as (H6 & _).
  destruct c6 as [[] [] [] [] [] [] [] []]; try reflexivity.
  by destruct (Hcolon H6).
Qed.

Lemma remove_urls_go_id s :
  str_Forall (fun c => is_lower_letter c ∨ c = " "%char) s →
  remove_urls_go false s = s.
Proof.
  induction s as [|c s IH]; [done|]. intros Hs.
  cbn [remove_urls_go]. rewrite (url_at_false _ Hs).
  destruct Hs as [_ Hs]. rewrite IH by done. by destruct (Py.isspace c).
Qed.

Lemma split_normalize_text text :
  Py.split (normalize_text text) = normalized_words text.
Proof.
  destruct (normalize_text_join text) as [-> Hws].
  unfold Py.split. rewrite split_go_runs. apply runs_go_join; [done|].
  eapply Forall_impl; [exact Hws|]. intros w [Hne Hw]. split; [done|].
  eapply str_Forall_impl; [|exact Hw]. apply letter_not_space.
Qed.

Lemma normalized_words_join ws :
  Forall is_word_of_letters ws → normalized_words (Py.join " " ws) = ws.
Proof.
  intros Hws. pose proof (join_Forall ws Hws) as Hj.
  unfold normalized_words.
  rewrite (str_lower_id _ Hj), (remove_urls_go_id _ Hj).
  rewrite !str_filter_id.
  - unfold findall_word. rewrite findall_word_go_runs.
    apply runs_go_join; [done|].
    eapply Forall_impl; [exact Hws|]. intros w [Hne Hw]. split; [done|].
    eapply str_Forall_impl; [|exact Hw].
    intros c Hc. by rewrite (letter_is_word c Hc).
  - eapply str_Forall_impl; [|exact Hj].
    intros c [Hc| ->]; [|done]. apply negb_true_iff. by apply letter_facts.
  - rewrite str_filter_id.
    + eapply str_Forall_impl; [|exact Hj].
      intros c [Hc| ->]; [|done]. apply negb_true_iff. by apply letter_facts.
    + eapply str_Forall_impl; [|exact Hj].
      intros c [Hc| ->]; [|done]. apply negb_true_iff. by apply letter_facts.
Qed.

Lemma normalized_again text :
  normalize_text (normalize_text text) = normalize_text text.
Proof.
  destruct (normalize_text_join text) as [Hj Hws].
  rewrite Hj at 1.
  destruct (normalize_text_join (Py.join " " (normalized_words text)))
    as [-> _].
  by rewrite normalized_words_join, <- Hj.
Qed.

(** X1: [normalize_text] is idempotent: a normalized text is its own normal
    form. *)
Theorem normalize_text_idempotent text :
  normalize_text (normalize_text text) = normalize_text text.
Proof. apply normalized_again. Qed.

(** X2: joining the tokens of a normalized text with single spaces gives
    the normalized text back, and for an ASCII text they are non-empty words
    of lowercase letters. *)
Theorem normalize_text_tokens text :
  Py.join " " (Py.split (normalize_text text)) = normalize_text text
  ∧ (str_isascii text →
     Forall is_word_of_letters (Py.split (normalize_text text))).
Proof.
  rewrite split_normalize_text.
  destruct (normalize_text_join text) as [Hj Hws]. by split.
Qed.

Lemma normalize_text_tokens_witness :
  Py.split (normalize_text "The Cat, sat!") = ["the"; "cat"; "sat"]
  ∧ Py.join " " (Py.split (normalize_text "The Cat, sat!"))
    = normalize_text "The Cat, sat!"
  ∧ Forall is_word_of_letters (Py.split (normalize_text "The Cat, sat!")).
Proof.
  split; [reflexivity|].
  destruct (normalize_text_tokens "The Cat, sat!") as [Hj Hws].
  split; [exact Hj|]. apply Hws.
  unfold str_isascii. cbn [str_Forall].
  repeat split; apply Nat.ltb_lt; reflexivity.
Defined.
End idempotent.

(** ** Invariants of the states of a model *)

Section invariants.
Import Language_Model.

Lemma sum_values_incr `{Countable K} (c : gmap K nat) (k : K) :
  Py.sum_values (Py.incr k c) = S (Py.sum_values c).
Proof.
  unfold Py.incr. destruct (c !! k) as [v|] eqn:Hk.
  - rewrite lookup_total_alt, Hk. cbn [default].
    rewrite <- (insert_delete_eq c k (S v)).
    rewrite sum_values_insert by apply lookup_delete_eq.
    rewrite <- (insert_delete_id c k v Hk) at 2.
    rewrite sum_values_insert by apply lookup_delete_eq. lia.
  - rewrite lookup_total_alt, Hk. cbn.
    rewrite sum_values_insert by done. lia.
Qed.

Lemma sum_values_update `{Countable K} (c : gmap K nat) (l : list K) :
  Py.sum_values (Py.update c l) = Py.sum_values c + length l.
Proof.
  revert c. induction l as [|x l IH]; intros c; [simpl; lia|].
  rewrite update_cons, IH, sum_values_incr. simpl. lia.
Qed.

Lemma windows_length {A} k (l : list A) w : w ∈ windows k l → length w = k.
Proof.
  induction l as [|x l IH]; [by intros ?%elem_of_nil|].
  cbn [windows]. destruct (k <=? length (x :: l)) eqn:Hk;
    [|by intros ?%elem_of_nil].
  apply Nat.leb_le in Hk.
  intros [->|Hw]%elem_of_cons; [|by apply IH].
  rewrite length_take. lia.
Qed.

Lemma count_in_pos `{EqDecision A} (x : A) (l : list A) :
  0 < count_in x l → x ∈ l.
Proof.
  unfold count_in. intros Hpos.
  destruct (filter (fun y => y = x) l) as [|y l'] eqn:Hf; [simpl in Hpos; lia|].
  assert (y ∈ filter (fun y => y = x) l) as Hy by (rewrite Hf; left).
  apply list_elem_of_filter in Hy as [-> Hy]. done.
Qed.

(** the tokens of a text: non-empty, made of lowercase letters and spaces *)
Lemma text_tokens_plain m text :
  Forall is_plain_token (text_tokens m text).
Proof.
  unfold text_tokens, tokenize. destruct (chars m).
  - destruct (normalize_text_join text) as [-> Hws].
    pose proof (join_Forall _ Hws) as Hj. revert Hj.
    generalize (Py.join " " (normalized_words text)). intros s.
    induction s as [|c s IH]; [constructor|].
    intros [Hc Hs]. cbn [Py.list_of_str]. constructor; [|by apply IH].
    split; [done|]. by split.
  - rewrite split_normalize_text.
    destruct (normalize_text_join text) as [_ Hws].
    eapply Forall_impl; [exact Hws|]. intros w [Hne Hw]. split; [done|].
    eapply str_Forall_impl; [|exact Hw]. auto.
Qed.

Lemma text_tokens_of_nonempty m text :
  normalize_text text ≠ "" → text_tokens m text ≠ [].
Proof.
  intros Hne. unfold text_tokens, tokenize. destruct (chars m).
  - destruct (normalize_text text); [done|]. done.
  - rewrite split_normalize_text.
    destruct (normalize_text_join text) as [Hj _].
    intros Hnil. rewrite Hnil in Hj. done.
Qed.

Lemma reachable_inv m :
  reachable m →
  1 ≤ n m
  ∧ vocab m = dom (freq_tokens m)
  ∧ token_count m = Py.sum_values (freq_tokens m)
  ∧ (∀ token, token ∈ vocab m → is_plain_token token)
  ∧ (∀ g, 0 < model_dict m !!! g → length g = n m)
  ∧ (m = init (n m) (chars m) ∨ vocab m ≠ ∅).
Proof.
  induction 1 as [n0 chars0 Hn|m text m' Hr IH Hb].
  - cbn [init n vocab freq_tokens token_count model_dict chars].
    split; [done|]. split; [by rewrite dom_empty_L|].
    split; [done|]. split; [|split; [|by left]].
    + intros token Hin. by apply elem_of_empty in Hin.
    + intros g. rewrite lookup_total_empty. intros Hg. by apply Nat.lt_irrefl in Hg.
  - destruct IH as (Hn & Hv & Ht & Hp & Hl & _).
    apply build_model_Ok in Hb as [Hne ->]; [|done].
    cbn [trained n vocab freq_tokens token_count model_dict chars].
    split; [done|]. split; [|split; [done|split; [|split]]].
    + rewrite Hv, dom_update. set_solver.
    + intros token. rewrite Hv, dom_update.
      rewrite !elem_of_union, elem_of_list_to_set.
      pose proof (text_tokens_plain m text) as Hall.
      rewrite Forall_forall in Hall.
      intros [Hin|[Hin|Hin]]; [apply Hp; by rewrite Hv..|by apply Hall].
    + intros g. rewrite update_lookup. intros Hpos.
      destruct (decide (0 < model_dict m !!! g)) as [Hold|Hnew]; [by apply Hl|].
      assert (0 < count_in g (text_ngrams m text)) as Hc by lia.
      apply count_in_pos in Hc. by apply windows_length in Hc.
    + right. pose proof (text_tokens_of_nonempty m text Hne) as Htok.
      destruct (text_tokens m text) as [|token tokens] eqn:Htokens; [done|].
      apply (non_empty_inhabited_L token).
      apply elem_of_union_r. rewrite dom_update. apply elem_of_union_r.
      apply elem_of_list_to_set. left.
Qed.
End invariants.

(** ** Bounds on [evaluate_text] *)

Section evaluate_bounds.
Import Language_Model.

Lemma Q2R_le_1 (q : Q) : (q <= 1)%Q → (Q2R q <= 1)%R.
Proof.
  intros Hq%Qle_Rle. replace 1%R with (Q2R 1); [done|].
  unfold Q2R. simpl. lra.
Qed.

Lemma Q2R_pos (q : Q) : (0 < q)%Q → (0 < Q2R q)%R.
Proof.
  intros Hq%Qlt_Rlt. replace 0%R with (Q2R 0); [done|].
  unfold Q2R. simpl. lra.
Qed.

Lemma ln_le_0 (x : R) : (0 < x)%R → (x <= 1)%R → (ln x <= 0)%R.
Proof.
  intros Hpos [Hlt| ->].
  - rewrite <- ln_1. left. by apply ln_increasing.
  - rewrite ln_1. lra.
Qed.

Lemma log_or_floor_le_0 (q : Q) : (q <= 1)%Q → (log_or_floor q <= 0)%R.
Proof.
  intros Hq. unfold log_or_floor. destruct (Qlt_le_dec 0 q) as [Hpos|_].
  - apply ln_le_0; [by apply Q2R_pos|by apply Q2R_le_1].
  - apply ln_le_0; [by apply Q2R_pos|by apply Q2R_le_1].
Qed.

Lemma sum_logs_le_0 (probs : list Q) :
  Forall (fun q => (q <= 1)%Q) probs → (sum_logs probs <= 0)%R.
Proof.
  induction 1 as [|q probs Hq _ IH]; [cbn; lra|].
  unfold sum_logs. cbn [foldr]. fold (sum_logs probs).
  pose proof (log_or_floor_le_0 q Hq). lra.
Qed.

Lemma mapM_Forall {A B} (f : A → result B) (P : B → Prop) l ys :
  (∀ x y, x ∈ l → f x = Ok y → P y) → mapM f l = Ok ys → Forall P ys.
Proof.
  revert ys. induction l as [|x l IH]; intros ys Hf.
  { intros [= <-]. constructor. }
  cbn [mapM]. intros (y & Hy & (ys' & Hys' & [= <-])%bind_Ok)%bind_Ok.
  constructor.
  - apply (Hf x y); [by left|done].
  - apply IH; [|done]. intros x' y' Hx'. apply Hf. by right.
Qed.

Lemma raw_frequency_le_1 m ngram : (raw_frequency m ngram <= 1)%Q.
Proof.
  unfold raw_frequency. destruct (decide _) as [|Hne]; [done|].
  pose proof (lookup_le_sum_values
                (suggestions m !!! removelast ngram) (List.last ngram ""))
    as Hle.
  fold (context_next_count m (removelast ngram) (List.last ngram "")) in Hle.
  fold (context_total m (removelast ngram)) in Hle.
  apply Qle_shift_div_r.
  - unfold Qlt. simpl. lia.
  - unfold Qle. simpl. lia.
Qed.

Lemma window_probability_le_1 m flag ngram q :
  reachable m → ngram ≠ [] →
  window_probability m flag ngram = Ok q → (q <= 1)%Q.
Proof.
  intros Hr Hng. unfold window_probability. destruct flag; cbn [negb].
  - destruct (reachable_inv m Hr) as (_ & _ & _ & _ & _ & [Hinit|Hv]).
    + rewrite Hinit. unfold smooth.
      rewrite index_last_nonempty by done. cbn [mbind result_bind].
      by vm_compute.
    + rewrite smooth_value by done. intros [= <-].
      by apply laplace_estimate_le_1.
  - rewrite relative_frequency_raw by done. intros [= <-].
    apply raw_frequency_le_1.
Qed.

(** X3: on a model that has been trained, [evaluate_text] of a text with a
    token returns a finite log-likelihood that is at most 0; it raises
    nothing. *)
Theorem evaluate_text_nonpositive m text :
  reachable m → vocab m ≠ ∅ → text_tokens m text ≠ [] →
  ∃ r, evaluate_text m text = Ok (Py.Fin r) ∧ (r <= 0)%R.
Proof.
  intros Hr Hv Htok. pose proof (reachable_n m Hr) as Hn.
  rewrite evaluate_text_windows by done.
  destruct (mapM (window_probability m _) (text_ngrams m text))
    as [probs|e] eqn:Hm.
  - exists (sum_logs probs). split; [done|]. apply sum_logs_le_0.
    eapply mapM_Forall; [|exact Hm]. intros w q Hw.
    apply window_probability_le_1; [done|].
    by apply (text_ngrams_nonempty m text).
  - exfalso. destruct (evaluate_text_total m text Hn Hv) as [x Hx].
    rewrite evaluate_text_windows in Hx by done. rewrite Hm in Hx. done.
Qed.

Lemma windows_head {A} k (l : list A) :
  1 ≤ k → k ≤ length l → ∃ ws, windows k l = take k l :: ws.
Proof.
  intros Hk Hl. destruct l as [|x l]; [simpl in Hl; lia|].
  cbn [windows]. apply Nat.leb_le in Hl. rewrite Hl. by eexists.
Qed.

(** X4: on a model that was never trained, [evaluate_text] of a text with a
    token raises [ZeroDivisionError]: every token is unseen, so the first
    window is smoothed, with an empty vocabulary and no counted context. *)
Theorem evaluate_text_untrained_raises n0 chars0 text :
  1 ≤ n0 → text_tokens (init n0 chars0) text ≠ [] →
  evaluate_text (init n0 chars0) text = Raise ZeroDivisionError.
Proof.
  intros Hn Htok. rewrite evaluate_text_windows by done.
  assert (any_unseen (init n0 chars0) (text_tokens (init n0 chars0) text) = true)
    as ->.
  { apply any_unseen_true.
    destruct (text_tokens (init n0 chars0) text) as [|token tokens]; [done|].
    exists token. split; [left|done]. }
  unfold text_ngrams.
  destruct (windows_head (n (init n0 chars0))
              (pad (n (init n0 chars0)) (text_tokens (init n0 chars0) text)))
    as [ws Hws]; [done|rewrite length_pad by done; lia|].
  rewrite Hws. cbn [mapM].
  assert (window_probability (init n0 chars0) true
            (take (n (init n0 chars0))
               (pad (n (init n0 chars0)) (text_tokens (init n0 chars0) text)))
          = Raise ZeroDivisionError) as ->; [|done].
  unfold window_probability, smooth. cbn [negb].
  rewrite index_last_nonempty.
  - cbn [mbind result_bind]. by vm_compute.
  - intros Hnil%(f_equal length).
    rewrite length_take, length_pad in Hnil by done.
    change (n (init n0 chars0)) with n0 in Hnil. simpl length in Hnil. lia.
Qed.
End evaluate_bounds.

(** ** The size of [edits1] and the reach of [edits2] *)

Section edit_sets.
Import Spell_Checker.
Implicit Types (word w x : string).

Lemma length_splits word : length (splits word) = String.length word + 1.
Proof. unfold splits. by rewrite length_fmap, length_seq. Qed.

Lemma length_bind_le {A B} (f : A → list B) (l : list A) k :
  (∀ a, a ∈ l → length (f a) ≤ k) → length (l ≫= f) ≤ k * length l.
Proof.
  induction l as [|a l IH]; intros Hf; [simpl; lia|].
  cbn [mbind list_bind]. rewrite length_app. cbn [length].
  pose proof (Hf a ltac:(left)).
  assert (length (l ≫= f) ≤ k * length l)
    by (apply IH; intros; apply Hf; by right).
  lia.
Qed.

Lemma length_letters_bind {B} (f : ascii → list B) :
  (∀ c, length (f c) = 1) → length (letters ≫= f) = 26.
Proof.
  intros Hf. unfold letters. cbn [list_ascii_of_string mbind list_bind].
  rewrite !length_app, !Hf. done.
Qed.

Lemma str_drop_length_ge i word :
  String.length word ≤ i → Py.str_drop i word = "".
Proof.
  revert i. induction word as [|c w IH]; intros [|i] Hi; simpl in *;
    try done; try lia.
  apply IH. lia.
Qed.

(** the last split has an empty right part: it gives no deletion and no
    substitution *)
Lemma splits_snoc word :
  splits word
  = ((fun i => (Py.str_take i word, Py.str_drop i word))
       <$> seq 0 (String.length word)) ++ [(word, "")].
Proof.
  unfold splits. rewrite seq_app, fmap_app. cbn [seq fmap list_fmap].
  do 2 f_equal. f_equal.
  - rewrite <- (str_take_drop (String.length word) word) at 3.
    rewrite (str_drop_length_ge _ word) by lia. by rewrite append_nil_r.
  - by apply str_drop_length_ge.
Qed.

Lemma length_bind_splits {B} (f : string * string → list B) word k :
  (∀ p, length (f p) ≤ k) → f (word, "") = [] →
  length (splits word ≫= f) ≤ k * String.length word.
Proof.
  intros Hf Hlast. rewrite splits_snoc, bind_app, length_app.
  assert (length ([(word, "")] ≫= f) = 0) as ->.
  { cbn [mbind list_bind]. by rewrite Hlast. }
  pose proof (length_bind_le f
    ((fun i => (Py.str_take i word, Py.str_drop i word))
       <$> seq 0 (String.length word)) k (fun p _ => Hf p)) as Hle.
  rewrite length_fmap, length_seq in Hle. lia.
Qed.

Lemma length_deletes word : length (deletes word) ≤ String.length word.
Proof.
  unfold deletes.
  etrans; [apply (length_bind_splits _ word 1)|lia].
  - intros [L R]. destruct (decide (R = "")); simpl; lia.
  - by rewrite decide_True.
Qed.

Lemma length_replaces word : length (replaces word) ≤ 26 * String.length word.
Proof.
  unfold replaces. apply (length_bind_splits _ word 26).
  - intros [L R]. destruct (decide (R = "")); [simpl; lia|].
    by rewrite length_letters_bind.
  - by rewrite decide_True.
Qed.

Lemma length_inserts word :
  length (inserts word) ≤ 26 * (String.length word + 1).
Proof.
  unfold inserts.
  pose proof (length_bind_le
    (fun '(L, R) => c ← letters; [L +:+ Py.chr c +:+ R])
    (splits word) 26) as Hle.
  rewrite length_splits in Hle. apply Hle.
  intros [L R] _. by rewrite length_letters_bind.
Qed.

Lemma length_transposes word : length (transposes word) ≤ String.length word.
Proof.
  unfold transposes.
  etrans; [apply (length_bind_splits _ word 1)|lia].
  - intros [L [|r0 [|r1 R]]]; simpl; lia.
  - done.
Qed.

Lemma size_list_to_set_le (l : list string) :
  size (list_to_set l : gset string) ≤ length l.
Proof.
  induction l as [|x l IH].
  { change (list_to_set [] : gset string) with (∅ : gset string).
    rewrite size_empty. simpl. lia. }
  change (list_to_set (x :: l) : gset string)
    with ({[ x ]} ∪ list_to_set l : gset string).
  rewrite size_union_alt, size_singleton.
  assert (size (list_to_set l ∖ {[ x ]} : gset string)
          ≤ size (list_to_set l : gset string))
    by (apply subseteq_size, subseteq_difference_l; reflexivity).
  simpl. lia.
Qed.

(** X5: [edits1(word)] has at most 54 n + 26 members for a word of n
    characters, and each member is at most one character longer or
    shorter than the word. *)
Theorem edits1_size_and_lengths word :
  size (edits1 word) ≤ 54 * String.length word + 26
  ∧ ∀ x, x ∈ edits1 word →
         String.length word ≤ String.length x + 1
         ∧ String.length x ≤ String.length word + 1.
Proof.
  split.
  - unfold edits1. etrans; [apply size_list_to_set_le|].
    rewrite !length_app.
    pose proof (length_deletes word). pose proof (length_transposes word).
    pose proof (length_replaces word). pose proof (length_inserts word).
    lia.
  - intros x [H|[H|[H|H]]]%elem_of_edits1.
    + apply deletes_length in H. lia.
    + apply transposes_length in H. lia.
    + apply replaces_length in H. lia.
    + apply inserts_length in H. lia.
Qed.

(** X6: [edits2(word)] always yields the word itself (an insertion undone by
    a deletion), and every string it yields is at most two characters
    longer or shorter than the word. *)
Theorem edits2_reach word :
  word ∈ edits2 word
  ∧ ∀ x, x ∈ edits2 word →
         String.length word ≤ String.length x + 2
         ∧ String.length x ≤ String.length word + 2.
Proof.
  split.
  - unfold edits2. apply list_elem_of_bind. exists (String "a" word). split.
    + apply list_elem_of_bind. exists word. split; [by left|].
      apply elem_of_elements, elem_of_edits1. left.
      apply elem_of_deletes_head.
    + apply elem_of_elements, elem_of_edits1. do 3 right.
      apply elem_of_inserts_head.
  - intros x. unfold edits2.
    intros (e1 & (e2 & ->%list_elem_of_singleton & He2%elem_of_elements)
                   %list_elem_of_bind & He1%elem_of_elements)
           %list_elem_of_bind.
    assert (∀ a b, b ∈ edits1 a →
                   String.length a ≤ String.length b + 1
                   ∧ String.length b ≤ String.length a + 1) as Hstep.
    { intros a b [H|[H|[H|H]]]%elem_of_edits1.
      - apply deletes_length in H. lia.
      - apply transposes_length in H. lia.
      - apply replaces_length in H. lia.
      - apply inserts_length in H. lia. }
    apply Hstep in He1, He2. lia.
Qed.
End edit_sets.

(** ** Candidates and corrections *)

Section corrections.
Import Spell_Checker.
Context (sc : Spell_Checker.t) (m : Language_Model.t).
Hypothesis Hlm : lm sc = Some m.

Lemma get_candidates_shape word :
  ∃ candidates,
    get_candidates sc word = Ok candidates
    ∧ candidates ≠ ∅
    ∧ ∀ c, c ∈ candidates →
           c = word
           ∨ (c ∈ Language_Model.vocab m
              ∧ (c ∈ edits1 word
                 ∨ ∃ e1, e1 ∈ edits1 word ∧ c ∈ edits1 e1)).
Proof.
  rewrite (get_candidates_eq sc m Hlm). eexists. split; [reflexivity|].
  cbn zeta. repeat case_decide.
  - split; [apply (non_empty_inhabited_L word), elem_of_singleton; reflexivity|].
    intros c ->%elem_of_singleton. by left.
  - split; [apply (non_empty_inhabited_L word), elem_of_singleton; reflexivity|].
    intros c ->%elem_of_singleton. by left.
  - split; [done|].
    intros c [(e1 & He1 & Hc)%elem_of_set_bind Hv]%elem_of_intersection.
    right. split; [done|]. right. by exists e1.
  - split; [done|]. intros c [Hc Hv]%elem_of_intersection.
    right. split; [done|]. by left.
Qed.

Lemma max_by_go_elem {A} (key : A → result R) best best_key l x :
  Py.max_by_go key best best_key l = Ok x → x = best ∨ x ∈ l.
Proof.
  revert best best_key. induction l as [|y l IH]; intros best best_key.
  { intros [= ->]. by left. }
  cbn [Py.max_by_go]. intros (k & _ & Hgo)%bind_Ok.
  destruct (Rlt_dec best_key k).
  - apply IH in Hgo as [->|Hin]; right; [by left|by right].
  - apply IH in Hgo as [->|Hin]; [by left|right; by right].
Qed.

Lemma max_by_elem {A} (key : A → result R) l x :
  Py.max_by key l = Ok x → x ∈ l.
Proof.
  destruct l as [|y l]; [done|]. cbn [Py.max_by].
  intros (k & _ & [->|Hin]%max_by_go_elem)%bind_Ok; [by left|by right].
Qed.

Lemma get_correction_candidate word context alpha c :
  get_correction sc word context alpha = Ok c →
  ∃ candidates, get_candidates sc word = Ok candidates ∧ c ∈ candidates.
Proof.
  unfold get_correction. intros (candidates & Hc & Hmax)%bind_Ok.
  exists candidates. split; [done|].
  destruct (decide (candidates = ∅)) as [He|_].
  - exfalso. destruct (get_candidates_shape word) as (cs & Hcs & Hne & _).
    congruence.
  - apply max_by_elem in Hmax. by apply elem_of_elements.
Qed.

Lemma get_correction_choice word context alpha c :
  get_correction sc word context alpha = Ok c →
  c = word ∨ c ∈ Language_Model.vocab m.
Proof.
  intros (candidates & Hc & Hin)%get_correction_candidate.
  destruct (get_candidates_shape word) as (cs & Hcs & _ & Hall).
  assert (cs = candidates) as -> by congruence.
  destruct (Hall c Hin) as [->|[Hv _]]; [by left|by right].
Qed.

(** X7: [get_candidates] never returns the empty set (the test for an empty
    set in [get_correction] never succeeds), and each candidate is the word
    itself or a word of the vocabulary one or two edits away. *)
Theorem get_candidates_never_empty word :
  ∃ candidates,
    get_candidates sc word = Ok candidates
    ∧ candidates ≠ ∅
    ∧ ∀ c, c ∈ candidates →
           c = word
           ∨ (c ∈ Language_Model.vocab m
              ∧ (c ∈ edits1 word
                 ∨ ∃ e1, e1 ∈ edits1 word ∧ c ∈ edits1 e1)).
Proof. apply get_candidates_shape. Qed.

(** X8: a correction returned by [get_correction] is the word itself or a
    word of the vocabulary. *)
Theorem get_correction_word_or_vocab word context alpha c :
  get_correction sc word context alpha = Ok c →
  c = word ∨ c ∈ Language_Model.vocab m.
Proof. apply get_correction_choice. Qed.

(** X9: [get_correction] leaves a word of the vocabulary as it is, whatever
    the context and [alpha]. *)
Theorem get_correction_known_word word context alpha :
  1 ≤ Language_Model.n m → word ∈ Language_Model.vocab m →
  get_correction sc word context alpha = Ok word.
Proof.
  intros Hn Hv.
  apply (get_correction_singleton sc m Hlm); [done| |].
  - by apply (non_empty_inhabited_L word).
  - rewrite (get_candidates_eq sc m Hlm). cbn zeta.
    by rewrite decide_True.
Qed.
End corrections.

(** ** The error model as a whole *)

Section error_probability.
Import Spell_Checker.
Context (sc : Spell_Checker.t).

Lemma Qmax_left (x y : Q) : (y <= x)%Q → Qmax x y = x.
Proof.
  intros Hle. unfold Qmax, GenericMinMax.gmax.
  destruct (x ?= y)%Q eqn:Hc; try done.
  apply Qlt_alt in Hc. by apply Qle_not_lt in Hle.
Qed.

Lemma get_first_edit_probability_no_tables candidate original_word alpha :
  error_tables sc = None →
  get_first_edit_probability sc candidate original_word alpha = Ok alpha.
Proof.
  intros Htb. unfold get_first_edit_probability.
  rewrite decide_True; [done|by left].
Qed.

Lemma distance_2_loop_no_tables candidate original_word alpha
    (l : list (string * string)) :
  error_tables sc = None → (alpha * alpha <= alpha)%Q →
  for_each
    (fun max_probability '(intermediate, next_edit) =>
       probability_intermediate_to_original ←
         get_first_edit_probability sc intermediate original_word alpha;
       probability_candidate_to_intermediate ←
         get_first_edit_probability sc candidate intermediate alpha;
       let combined_probability :=
         (probability_intermediate_to_original
          * probability_candidate_to_intermediate)%Q in
       Ok (Qmax max_probability combined_probability))
    l alpha
  = Ok alpha.
Proof.
  intros Htb Hsq. induction l as [|[intermediate next_edit] l IH]; [done|].
  cbn [for_each]. rewrite !get_first_edit_probability_no_tables by done.
  cbn [mbind result_bind]. rewrite (Qmax_left _ _ Hsq). apply IH.
Qed.

(** X10: without error tables the error model is the constant [alpha], for
    [alpha] between 0 and 1: a candidate one or two edits away and the word
    itself get the same error probability. *)
Theorem compute_error_prob_no_tables candidate original_word alpha :
  error_tables sc = None → (0 <= alpha)%Q → (alpha <= 1)%Q →
  compute_error_prob sc candidate original_word alpha = Ok alpha.
Proof.
  intros Htb H0 H1.
  assert (alpha * alpha <= alpha)%Q as Hsq.
  { rewrite <- (Qmult_1_l alpha) at 3. by apply Qmult_le_compat_r. }
  unfold compute_error_prob, calculate_distance_2_probability.
  rewrite get_first_edit_probability_no_tables by done.
  cbn [mbind result_bind].
  rewrite distance_2_loop_no_tables by done.
  cbn [mbind result_bind]. f_equal. apply Qmax_left, Qle_refl.
Qed.
End error_probability.

Section error_probability_tables.
Import Spell_Checker.
Context (sc : Spell_Checker.t) (m : Language_Model.t) (tb : Error_Tables).
Hypothesis Hlm : lm sc = Some m.
Hypothesis Htb : error_tables sc = Some tb.

(** X11: with a model and error tables set, the direct edit probability of a
    candidate other than the word is at least [1e-8], and the error
    probability is at least the direct one. *)
Theorem compute_error_prob_floor candidate original_word alpha :
  original_word ≠ candidate →
  ∃ direct_prob prob,
    get_first_edit_probability sc candidate original_word alpha
    = Ok direct_prob
    ∧ compute_error_prob sc candidate original_word alpha = Ok prob
    ∧ (Language_Model.floor <= direct_prob)%Q
    ∧ (direct_prob <= prob)%Q.
Proof.
  intros Hne.
  destruct (get_first_edit_probability_total sc m Hlm candidate original_word
              alpha) as [d Hd].
  destruct (calculate_distance_2_probability_total sc m Hlm candidate
              original_word alpha) as [d2 Hd2].
  exists d, (Qmax d d2). split; [done|]. split; [|split].
  - unfold compute_error_prob. by rewrite Hd, Hd2.
  - revert Hd. unfold get_first_edit_probability.
    rewrite decide_False by (rewrite Htb; intros [?|?]; done).
    intros (pi & _ & (pd & _ & (ps & _ & [= <-])%bind_Ok)%bind_Ok)%bind_Ok.
    eapply Qle_trans; [|apply Q.le_max_r].
    eapply Qle_trans; [|apply Q.le_max_r].
    eapply Qle_trans; [|apply Q.le_max_r]. apply Q.le_max_r.
  - apply Q.le_max_l.
Qed.
End error_probability_tables.

(** ** [spell_check] as a whole *)

Section spell_check_no_model.
Import Spell_Checker.

Lemma split_nil_normalize_text text :
  Py.split (normalize_text text) = [] → normalize_text text = "".
Proof.
  rewrite split_normalize_text. intros Hnil.
  destruct (normalize_text_join text) as [-> _]. by rewrite Hnil.
Qed.

(** X12: on a text without token [spell_check] returns the empty string, with
    or without a language model. *)
Theorem spell_check_no_token sc text alpha :
  Py.split (normalize_text text) = [] → spell_check sc text alpha = Ok "".
Proof.
  intros Hnil. unfold spell_check. rewrite Hnil.
  by rewrite split_nil_normalize_text.
Qed.

(** X13: without a language model [evaluate_text] raises [ValueError], while
    [get_candidates], [get_correction] and, on a text with a token,
    [spell_check] raise [AttributeError]. *)
Theorem no_language_model_raises sc text word context alpha :
  lm sc = None →
  evaluate_text sc text = Raise ValueError
  ∧ get_candidates sc word = Raise AttributeError
  ∧ get_correction sc word context alpha = Raise AttributeError
  ∧ (Py.split (normalize_text text) ≠ [] →
     spell_check sc text alpha = Raise AttributeError).
Proof.
  intros Hlm.
  assert (get_candidates sc word = Raise AttributeError) as Hc.
  { unfold get_candidates, known, the_lm. by rewrite Hlm. }
  split; [|split; [done|split]].
  - unfold evaluate_text. by rewrite Hlm.
  - unfold get_correction. by rewrite Hc.
  - intros Htok. unfold spell_check, the_lm. rewrite Hlm.
    by destruct (Py.split (normalize_text text)).
Qed.
End spell_check_no_model.

Section spell_check_model.
Import Spell_Checker.
Context (sc : Spell_Checker.t) (m : Language_Model.t).
Hypothesis Hlm : lm sc = Some m.

Lemma correct_each_known alpha tokens :
  (∀ token, token ∈ tokens → token ∈ Language_Model.vocab m) →
  correct_each sc alpha tokens = Ok tokens.
Proof.
  induction tokens as [|token tokens IH]; intros Hall; [done|].
  cbn [correct_each]. unfold the_lm. rewrite Hlm. cbn [mbind result_bind].
  unfold Language_Model.get_vocab.
  rewrite decide_True by (apply Hall; by left).
  cbn [mbind result_bind]. rewrite IH; [done|].
  intros token' Hin. apply Hall. by right.
Qed.

(** X14: a text with fewer tokens than the order of the model, all of them in
    the vocabulary, comes back from [spell_check] as its normalized text. *)
Theorem spell_check_short_known text alpha :
  length (Py.split (normalize_text text)) < Language_Model.n m →
  (∀ token, token ∈ Py.split (normalize_text text) →
            token ∈ Language_Model.vocab m) →
  spell_check sc text alpha = Ok (normalize_text text).
Proof.
  intros Hlen Hall. unfold spell_check.
  destruct (Py.split (normalize_text text)) as [|token tokens] eqn:Htokens;
    [done|].
  rewrite <- Htokens in *. unfold the_lm. rewrite Hlm.
  cbn [mbind result_bind]. unfold Language_Model.get_model_window_size.
  rewrite decide_True by done. rewrite correct_each_known by done.
  cbn [mbind result_bind]. f_equal.
  rewrite split_normalize_text.
  by destruct (normalize_text_join text) as [-> _].
Qed.

Lemma index_Ok_lookup {A} (l : list A) i x :
  Language_Model.index l i = Ok x → l !! i = Some x.
Proof. unfold Language_Model.index. by destruct (l !! i); intros [= ->]. Qed.

Lemma candidate_in_vocab word context alpha c :
  get_correction sc word context alpha = Ok c → c ≠ word →
  c ∈ Language_Model.vocab m.
Proof.
  intros Hc Hne.
  destruct (get_correction_choice sc m Hlm word context alpha c Hc); done.
Qed.

Lemma oov_scan_Some alpha n0 tokens indices sentence :
  oov_scan sc alpha n0 tokens indices = Ok (Some sentence) →
  one_word_replaced m tokens sentence.
Proof.
  induction indices as [|i indices IH]; [done|].
  cbn [oov_scan].
  intros (token & Ht%index_Ok_lookup & (c & Hc & Hres)%bind_Ok)%bind_Ok.
  destruct (decide (c ≠ token)) as [Hne|_]; [|by apply IH].
  injection Hres as <-. exists i, token, c. repeat split; try done.
  by eapply candidate_in_vocab.
Qed.

Lemma one_token_variants_replaced tokens i rest variants :
  drop i tokens = rest →
  one_token_variants sc tokens i rest = Ok variants →
  Forall (one_word_replaced m tokens) variants.
Proof.
  revert i variants. induction rest as [|token rest IH]; intros i variants Hd.
  { intros [= <-]. constructor. }
  cbn [one_token_variants].
  intros (candidates & Hc & (later & Hl & [= <-])%bind_Ok)%bind_Ok.
  assert (tokens !! i = Some token) as Hi.
  { rewrite <- (Nat.add_0_r i), <- lookup_drop, Hd. done. }
  apply Forall_app. split.
  - apply Forall_forall. intros v (c & Hv & Hin%elem_of_elements)%list_elem_of_bind.
    destruct (decide (c ≠ token)) as [Hne|_]; [|by apply elem_of_nil in Hv].
    apply list_elem_of_singleton in Hv as ->.
    exists i, token, c. repeat split; try done.
    + destruct (get_candidates_shape sc m Hlm token)
        as (cs & Hcs & _ & Hall).
      assert (cs = candidates) as -> by congruence.
      destruct (Hall c Hin) as [->|[Hv _]]; done.
    + f_equal. symmetry. replace (i + 1) with (S i) by lia.
      apply insert_take_drop. by apply lookup_lt_Some in Hi.
  - apply (IH (i + 1)); [|done].
    by rewrite <- (drop_drop tokens 1 i), Hd.
Qed.

Lemma score_all_sentences original_sentence alpha sentences scored :
  score_all sc original_sentence alpha sentences = Ok scored →
  scored.*2 = sentences.
Proof.
  revert scored. induction sentences as [|s sentences IH]; intros scored.
  { by intros [= <-]. }
  cbn [score_all].
  intros (ll & _ & (scored' & Hs & [= <-])%bind_Ok)%bind_Ok.
  cbn [fmap list_fmap snd]. f_equal. by apply IH.
Qed.

Lemma best_sentence_choice alpha tokens sentence :
  best_sentence sc alpha tokens = Ok sentence →
  sentence = Py.join " " tokens ∨ one_word_replaced m tokens sentence.
Proof.
  unfold best_sentence.
  intros (variants & Hv & (scored & Hs & (best & Hb & [= <-])%bind_Ok)%bind_Ok)
         %bind_Ok.
  apply max_by_elem in Hb. apply score_all_sentences in Hs.
  assert (best.2 ∈ Py.join " " tokens :: variants) as Hin.
  { rewrite <- Hs. apply list_elem_of_fmap. by exists best. }
  apply elem_of_cons in Hin as [->|Hin]; [by left|right].
  apply (one_token_variants_replaced tokens 0 tokens variants) in Hv; [|done].
  rewrite Forall_forall in Hv. by apply Hv.
Qed.

(** X15: on a text with at least as many tokens as the order of the model,
    [spell_check] returns the tokens joined, or the tokens with exactly one
    of them replaced by a different word of the vocabulary. *)
Theorem spell_check_replaces_at_most_one text alpha sentence :
  Language_Model.n m ≤ length (Py.split (normalize_text text)) →
  spell_check sc text alpha = Ok sentence →
  sentence = normalize_text text
  ∨ one_word_replaced m (Py.split (normalize_text text)) sentence.
Proof.
  intros Hlen. unfold spell_check.
  destruct (Py.split (normalize_text text)) as [|token tokens] eqn:Htokens.
  { intros [= <-]. by left. }
  rewrite <- Htokens in *. unfold the_lm. rewrite Hlm.
  cbn [mbind result_bind]. unfold Language_Model.get_model_window_size.
  rewrite decide_False by lia.
  intros ([s|] & Hscan & Hres)%bind_Ok.
  - injection Hres as <-. right. by apply oov_scan_Some in Hscan.
  - apply best_sentence_choice in Hres as [->|Hone]; [left|by right].
    rewrite Htokens, <- Htokens, split_normalize_text.
    by destruct (normalize_text_join text) as [-> _].
Qed.
End spell_check_model.

(** ** The order of training *)

Section training_order.
Import Language_Model.

Lemma incr_comm `{Countable K} (c : gmap K nat) (a b : K) :
  Py.incr a (Py.incr b c) = Py.incr b (Py.incr a c).
Proof.
  unfold Py.incr. destruct (decide (a = b)) as [->|Hne]; [done|].
  rewrite !lookup_total_insert_ne by done.
  by apply insert_insert_ne.
Qed.

Lemma update_Permutation `{Countable K} (c : gmap K nat) (l1 l2 : list K) :
  l1 ≡ₚ l2 → Py.update c l1 = Py.update c l2.
Proof.
  intros Hp. revert c.
  induction Hp as [|x l1 l2 _ IH|x y l|l1 l2 l3 _ IH1 _ IH2]; intros c.
  - done.
  - rewrite !update_cons. apply IH.
  - rewrite !update_cons. by rewrite incr_comm.
  - by rewrite IH1.
Qed.

Lemma update_app `{Countable K} (c : gmap K nat) (l1 l2 : list K) :
  Py.update (Py.update c l1) l2 = Py.update c (l1 ++ l2).
Proof. unfold Py.update. by rewrite foldl_app. Qed.

Lemma update_update_comm `{Countable K} (c : gmap K nat) (l1 l2 : list K) :
  Py.update (Py.update c l1) l2 = Py.update (Py.update c l2) l1.
Proof.
  rewrite !update_app. apply update_Permutation, Permutation_app_comm.
Qed.

Lemma add_suggestion_comm sg (w1 w2 : list string) :
  add_suggestion (add_suggestion sg w1) w2
  = add_suggestion (add_suggestion sg w2) w1.
Proof.
  unfold add_suggestion.
  destruct (decide (removelast w1 = removelast w2)) as [Hctx|Hctx].
  - rewrite Hctx, !lookup_total_insert_eq, !insert_insert_eq.
    by rewrite incr_comm.
  - rewrite !lookup_total_insert_ne by done.
    by apply insert_insert_ne.
Qed.

Lemma add_suggestions_Permutation sg (l1 l2 : list (list string)) :
  l1 ≡ₚ l2 → foldl add_suggestion sg l1 = foldl add_suggestion sg l2.
Proof.
  intros Hp. revert sg.
  induction Hp as [|x l1 l2 _ IH|x y l|l1 l2 l3 _ IH1 _ IH2]; intros sg.
  - done.
  - cbn [foldl]. apply IH.
  - cbn [foldl]. by rewrite add_suggestion_comm.
  - by rewrite IH1.
Qed.

Lemma trained_comm m text1 text2 :
  trained (trained m text1) text2 = trained (trained m text2) text1.
Proof.
  unfold trained at 1 3.
  rewrite !text_tokens_trained, !text_ngrams_trained.
  cbn [trained n chars char_pair char_counts model_dict suggestions
       freq_tokens vocab].
  rewrite (update_update_comm (char_pair m)).
  rewrite (update_update_comm (char_counts m)).
  rewrite (update_update_comm (model_dict m)).
  rewrite (update_update_comm (freq_tokens m)).
  f_equal.
  - rewrite <- !foldl_app.
    apply add_suggestions_Permutation, Permutation_app_comm.
  - rewrite !dom_update. set_solver.
Qed.

(** X16: the order of two trainings does not matter: [build_model] on
    [text1] and then on [text2] leaves the model in the state that
    [build_model] on [text2] and then on [text1] leaves it in. *)
Theorem build_model_order m text1 text2 m1 m12 :
  1 ≤ n m →
  build_model m text1 = Ok m1 → build_model m1 text2 = Ok m12 →
  ∃ m2, build_model m text2 = Ok m2 ∧ build_model m2 text1 = Ok m12.
Proof.
  intros Hn [Hne1 ->]%build_model_Ok; [|done].
  intros [Hne2 ->]%build_model_Ok; [|done].
  exists (trained m text2). split.
  - by apply build_model_nonempty.
  - rewrite trained_comm. by apply build_model_nonempty.
Qed.
End training_order.

(** ** What the states of a model keep *)

Section kept.
Import Language_Model.

(** X17: in every state of a model the vocabulary is the set of keys of
    [freq_tokens] and [token_count] is the sum of its counts; a completed
    [build_model] adds the number of tokens of its text to [token_count]. *)
Theorem vocabulary_and_token_count m :
  reachable m →
  vocab m = dom (freq_tokens m)
  ∧ token_count m = Py.sum_values (freq_tokens m)
  ∧ ∀ text m', build_model m text = Ok m' →
               token_count m' = token_count m + length (text_tokens m text).
Proof.
  intros Hr. destruct (reachable_inv m Hr) as (Hn & Hv & Ht & _).
  split; [done|]. split; [done|].
  intros text m' [_ ->]%build_model_Ok; [|done].
  cbn [trained token_count]. by rewrite sum_values_update, Ht.
Qed.

Lemma sentinels_not_plain :
  ¬ is_plain_token "<s>" ∧ ¬ is_plain_token "</s>".
Proof.
  split; intros [_ [[[H _]|H] _]]; try discriminate; vm_compute in H; lia.
Qed.

Lemma reachable_ascii_reachable m : reachable_ascii m → reachable m.
Proof.
  induction 1 as [n0 chars0 Hn|m text m' _ IH _ Hb].
  - by apply reachable_init.
  - by apply (reachable_build m text).
Qed.

(** X18: the sentinels of the padding never enter the vocabulary, and in a
    model trained on ASCII texts every token of the vocabulary is non-empty
    and made of lowercase letters and spaces. *)
Theorem sentinels_never_in_vocab m :
  reachable m →
  ("<s>" ∉ vocab m) ∧ ("</s>" ∉ vocab m)
  ∧ (reachable_ascii m → ∀ token, token ∈ vocab m → is_plain_token token).
Proof.
  intros Hr. destruct (reachable_inv m Hr) as (_ & _ & _ & Hp & _).
  destruct sentinels_not_plain as [Hs He].
  split; [|split; [|done]]; intros Hin%Hp; done.
Qed.

(** X19: the two tables of n-gram counts agree in every state of a model: the
    count of an n-gram in [model_dict] is the count of its last token after
    its context in [suggestions]; it is at most the total of that context,
    and only n-grams of the order of the model are counted. *)
Theorem ngram_tables_agree m :
  reachable m →
  (∀ context token,
     model_dict m !!! (context ++ [token])
     = context_next_count m context token)
  ∧ (∀ ngram, ngram ≠ [] →
              model_dict m !!! ngram ≤ context_total m (removelast ngram))
  ∧ (∀ ngram, 0 < model_dict m !!! ngram → length ngram = n m).
Proof.
  intros Hr. destruct (reachable_inv m Hr) as (_ & _ & _ & _ & Hl & _).
  split; [|split; [|done]].
  - intros context token. by apply reachable_counts.
  - intros ngram Hne. rewrite (snoc_removelast_last ngram Hne) at 1.
    rewrite reachable_counts by done. apply lookup_le_sum_values.
Qed.

(** X20: a text and its normalized form are the same to the model:
    [build_model] and [evaluate_text] give the same result on both. *)
Theorem model_reads_normal_form m text :
  build_model m (normalize_text text) = build_model m text
  ∧ evaluate_text m (normalize_text text) = evaluate_text m text
  ∧ ∀ sc alpha,
      Spell_Checker.spell_check sc (normalize_text text) alpha
      = Spell_Checker.spell_check sc text alpha.
Proof.
  unfold build_model, evaluate_text, Spell_Checker.spell_check.
  by rewrite (normalized_again text).
Qed.
End kept.

(** ** Edit points *)

Section edit_points.
Import Spell_Checker.
Implicit Types (word x L R X : string).

Lemma first_index_sound test k idx :
  first_index test k = Some idx → idx < k ∧ test idx = true.
Proof.
  unfold first_index. intros [Hin Ht]%List.find_some.
  apply in_seq in Hin. split; [lia|done].
Qed.

Lemma first_index_exists test k i :
  i < k → test i = true → ∃ idx, first_index test k = Some idx.
Proof.
  intros Hi Ht. unfold first_index.
  destruct (List.find test (seq 0 k)) as [idx|] eqn:Hf; [by eexists|].
  pose proof (List.find_none _ _ Hf i) as Hnone.
  rewrite Hnone in Ht; [done|]. apply in_seq. lia.
Qed.

Lemma first_index_found (P : nat → Prop) `{∀ i, Decision (P i)} k i :
  i < k → P i →
  ∃ idx, first_index (fun i => bool_decide (P i)) k = Some idx ∧ P idx.
Proof.
  intros Hi HP.
  destruct (first_index_exists (fun i => bool_decide (P i)) k i Hi)
    as [idx Hidx]; [by apply bool_decide_eq_true|].
  exists idx. split; [done|].
  apply first_index_sound in Hidx as [_ Ht].
  by apply bool_decide_eq_true in Ht.
Qed.

Lemma substitution_point_differ x word :
  String.length x = String.length word → x ≠ word →
  ∃ mod_char orig_char,
    substitution_point x word = Some (mod_char, orig_char)
    ∧ mod_char ≠ orig_char.
Proof.
  revert word. induction x as [|c x IH]; intros [|d word] Hlen Hne;
    try done.
  cbn [substitution_point]. destruct (decide (c ≠ d)) as [Hcd|Hcd].
  - by exists c, d.
  - apply dec_stable in Hcd as ->. apply IH.
    + simpl in Hlen. lia.
    + intros ->. done.
Qed.

(** X21: the estimators find an edit point for what the generator makes.
    For a deletion of [word] the search of [insertion_probability]
    succeeds, for an insertion into [word] the search of
    [deletion_probability] succeeds, and the point found gives the same
    edit; for a transposition of [word] the search of
    [transposition_probability] succeeds; for a replacement that changes
    [word] the search of [substitution_probability] finds two different
    characters. *)
Theorem generated_edits_have_points word x :
  (x ∈ deletes word →
     ∃ idx, insertion_point x word = Some idx
            ∧ Py.str_take idx word +:+ Py.str_drop (idx + 1) word = x)
  ∧ (x ∈ inserts word →
     ∃ idx, deletion_point x word = Some idx
            ∧ Py.str_take idx x +:+ Py.str_drop (idx + 1) x = word)
  ∧ (x ∈ transposes word → ∃ i, transposition_point x word = Some i)
  ∧ (x ∈ replaces word → x ≠ word →
     ∃ mod_char orig_char,
       substitution_point x word = Some (mod_char, orig_char)
       ∧ mod_char ≠ orig_char).
Proof.
  split; [|split; [|split]].
  - unfold deletes.
    intros ([L R] & Hx & <-%splits_append)%list_elem_of_bind.
    destruct (decide (R = "")) as [|Hne]; [by apply elem_of_nil in Hx|].
    apply list_elem_of_singleton in Hx as ->.
    destruct R as [|r R]; [done|]. cbn [Py.str_drop].
    apply (first_index_found _ _ (String.length L)).
    + rewrite length_append. simpl. lia.
    + by rewrite str_take_app, str_drop_app.
  - unfold inserts.
    intros ([L R] & Hx & <-%splits_append)%list_elem_of_bind.
    apply list_elem_of_bind in Hx as (c & ->%list_elem_of_singleton & _).
    apply (first_index_found _ _ (String.length L)).
    + rewrite !length_append. simpl. lia.
    + by rewrite str_take_app, str_drop_app.
  - unfold transposes.
    intros ([L R] & Hx & <-%splits_append)%list_elem_of_bind.
    destruct R as [|r0 [|r1 R]]; try by apply elem_of_nil in Hx.
    apply list_elem_of_singleton in Hx as ->. cbn [Py.str_drop].
    destruct (first_index_found
      (fun i =>
         Py.str_get i (L +:+ String r0 (String r1 R))
         = Py.str_get (i + 1) (L +:+ Py.chr r1 +:+ Py.chr r0 +:+ R)
         ∧ Py.str_get (i + 1) (L +:+ String r0 (String r1 R))
           = Py.str_get i (L +:+ Py.chr r1 +:+ Py.chr r0 +:+ R)
         ∧ Py.str_take i (L +:+ String r0 (String r1 R))
           +:+ Py.str_drop (i + 2) (L +:+ String r0 (String r1 R))
           = Py.str_take i (L +:+ Py.chr r1 +:+ Py.chr r0 +:+ R)
             +:+ Py.str_drop (i + 2) (L +:+ Py.chr r1 +:+ Py.chr r0 +:+ R))
      (String.length (L +:+ String r0 (String r1 R)) - 1)
      (String.length L)) as (i & Hi & _); [| |by exists i].
    + rewrite length_append. simpl. lia.
    + rewrite !str_take_app, !str_drop_app.
      rewrite <- (Nat.add_0_r (String.length L)) at 1 4.
      rewrite !str_get_app. done.
  - intros Hx Hne. apply substitution_point_differ; [|done].
    by apply replaces_length.
Qed.
End edit_points.

(** ** The properties on the model trained on [hello] *)

Section on_hello.
Import Spell_Checker.

Lemma hello_reachable : reachable hello_model.
Proof.
  apply (reachable_build (Language_Model.init 2 false) "hello").
  - apply reachable_init. lia.
  - vm_compute. reflexivity.
Qed.

Lemma hello_vocab_nonempty : Language_Model.vocab hello_model ≠ ∅.
Proof.
  apply (non_empty_inhabited_L "hello"), (bool_decide_unpack _).
  by vm_compute.
Qed.

Lemma hello_in_vocab : "hello" ∈ Language_Model.vocab hello_model.
Proof. apply (bool_decide_unpack _). by vm_compute. Qed.

Lemma vocabulary_and_token_count_witness :
  Language_Model.vocab hello_model
  = dom (Language_Model.freq_tokens hello_model)
  ∧ Language_Model.token_count hello_model
    = Py.sum_values (Language_Model.freq_tokens hello_model)
  ∧ ∀ text m', Language_Model.build_model hello_model text = Ok m' →
               Language_Model.token_count m'
               = Language_Model.token_count hello_model
                 + length (text_tokens hello_model text).
Proof. exact (vocabulary_and_token_count hello_model hello_reachable). Defined.

Lemma hello_reachable_ascii : reachable_ascii hello_model.
Proof.
  apply (reachable_ascii_build (Language_Model.init 2 false) "hello").
  - apply reachable_ascii_init. lia.
  - unfold str_isascii. cbn [str_Forall].
  repeat split; apply Nat.ltb_lt; reflexivity.
  - vm_compute. reflexivity.
Qed.

Lemma sentinels_never_in_vocab_witness :
  ("<s>" ∉ Language_Model.vocab hello_model)
  ∧ ("</s>" ∉ Language_Model.vocab hello_model)
  ∧ ∀ token, token ∈ Language_Model.vocab hello_model → is_plain_token token.
Proof.
  destruct (sentinels_never_in_vocab hello_model hello_reachable)
    as (Hs & He & Hp).
  split; [exact Hs|]. split; [exact He|]. exact (Hp hello_reachable_ascii).
Defined.

Lemma ngram_tables_agree_witness :
  (∀ context token,
     Language_Model.model_dict hello_model !!! (context ++ [token])
     = context_next_count hello_model context token)
  ∧ (∀ ngram, ngram ≠ [] →
              Language_Model.model_dict hello_model !!! ngram
              ≤ context_total hello_model (removelast ngram))
  ∧ (∀ ngram, 0 < Language_Model.model_dict hello_model !!! ngram →
              length ngram = Language_Model.n hello_model).
Proof. exact (ngram_tables_agree hello_model hello_reachable). Defined.

Lemma evaluate_text_nonpositive_witness :
  ∃ r, Language_Model.evaluate_text hello_model "hello" = Ok (Py.Fin r)
       ∧ (r <= 0)%R.
Proof.
  apply (evaluate_text_nonpositive hello_model "hello").
  - exact hello_reachable.
  - exact hello_vocab_nonempty.
  - vm_compute. discriminate.
Defined.

Lemma evaluate_text_untrained_raises_witness :
  Language_Model.evaluate_text (Language_Model.init 2 false) "the cat"
  = Raise ZeroDivisionError.
Proof.
  apply (evaluate_text_untrained_raises 2 false "the cat").
  - lia.
  - vm_compute. discriminate.
Defined.

Lemma get_candidates_never_empty_witness :
  ∃ candidates,
    get_candidates hello_checker "helo" = Ok candidates
    ∧ candidates ≠ ∅
    ∧ ∀ c, c ∈ candidates →
           c = "helo"
           ∨ (c ∈ Language_Model.vocab hello_model
              ∧ (c ∈ edits1 "helo"
                 ∨ ∃ e1, e1 ∈ edits1 "helo" ∧ c ∈ edits1 e1)).
Proof.
  exact (get_candidates_never_empty hello_checker hello_model eq_refl "helo").
Defined.

Lemma get_correction_word_or_vocab_witness :
  get_correction hello_checker "helo" "" (1 # 2) = Ok "hello"
  ∧ ("hello" = "helo" ∨ "hello" ∈ Language_Model.vocab hello_model).
Proof.
  split; [apply two_runs_correction_helo|].
  apply (get_correction_word_or_vocab hello_checker hello_model eq_refl
           "helo" "" (1 # 2) "hello").
  apply two_runs_correction_helo.
Defined.

Lemma get_correction_known_word_witness :
  get_correction hello_checker "hello" "say" (1 # 2) = Ok "hello".
Proof.
  apply (get_correction_known_word hello_checker hello_model eq_refl).
  - simpl. lia.
  - exact hello_in_vocab.
Defined.

Lemma compute_error_prob_no_tables_witness :
  compute_error_prob hello_checker "hello" "helo" (1 # 2) = Ok (1 # 2).
Proof.
  apply (compute_error_prob_no_tables hello_checker "hello" "helo" (1 # 2)).
  - reflexivity.
  - discriminate.
  - discriminate.
Defined.

Lemma compute_error_prob_floor_witness :
  let sc := mk (Some hello_model) (Some (mk_tables ∅ ∅ ∅ ∅)) in
  ∃ direct_prob prob,
    get_first_edit_probability sc "hello" "helo" (1 # 2) = Ok direct_prob
    ∧ compute_error_prob sc "hello" "helo" (1 # 2) = Ok prob
    ∧ (Language_Model.floor <= direct_prob)%Q
    ∧ (direct_prob <= prob)%Q.
Proof.
  intros sc.
  apply (compute_error_prob_floor sc hello_model (mk_tables ∅ ∅ ∅ ∅)
           eq_refl eq_refl "hello" "helo" (1 # 2)).
  discriminate.
Defined.

Lemma spell_check_no_token_witness :
  spell_check hello_checker "12, 34... (56)!" (1 # 2) = Ok "".
Proof.
  apply (spell_check_no_token hello_checker "12, 34... (56)!" (1 # 2)).
  reflexivity.
Defined.

Lemma no_language_model_raises_witness :
  let sc := mk None None in
  evaluate_text sc "the cat" = Raise ValueError
  ∧ get_candidates sc "cat" = Raise AttributeError
  ∧ get_correction sc "cat" "the" (1 # 2) = Raise AttributeError
  ∧ (Py.split (normalize_text "the cat") ≠ [] →
     spell_check sc "the cat" (1 # 2) = Raise AttributeError).
Proof.
  intros sc.
  exact (no_language_model_raises sc "the cat" "cat" "the" (1 # 2) eq_refl).
Defined.

Lemma spell_check_short_known_witness :
  spell_check hello_checker "Hello!" (1 # 2) = Ok (normalize_text "Hello!").
Proof.
  apply (spell_check_short_known hello_checker hello_model eq_refl).
  - vm_compute. lia.
  - change (Py.split (normalize_text "Hello!")) with ["hello"].
    intros token ->%list_elem_of_singleton. exact hello_in_vocab.
Defined.

Lemma spell_check_replaces_at_most_one_witness :
  "q hello hello" = normalize_text "q hello helo"
  ∨ one_word_replaced hello_model (Py.split (normalize_text "q hello helo"))
      "q hello hello".
Proof.
  apply (spell_check_replaces_at_most_one hello_checker hello_model eq_refl
           "q hello helo" (1 # 2)).
  - vm_compute. lia.
  - apply two_runs_spell_check.
Defined.

Lemma build_model_order_witness :
  let m := Language_Model.init 2 false in
  let m1 := trained m "the cat" in
  let m12 := trained m1 "the mat" in
  ∃ m2, Language_Model.build_model m "the mat" = Ok m2
        ∧ Language_Model.build_model m2 "the cat" = Ok m12.
Proof.
  intros m m1 m12.
  apply (build_model_order m "the cat" "the mat" m1 m12).
  - simpl. lia.
  - vm_compute. reflexivity.
  - vm_compute. reflexivity.
Defined.
End on_hello.
